(** * MarkJSInput: the input hub of [src/markjsinput.js]

    The class [MarkJSInput] turns keyboard, mouse, touch and gamepad input
    into calls of named handlers on a list of subscribers.  This file
    embeds the class as functions on an explicit instance state and proves
    the properties (C1 to C10) of its specification.

    Conventions of the embedding:
    - a JS number is an exact rational ([Q]); rounding error, infinities
      and NaN are outside the model, so a division is only meaningful
      where its divisor is not zero;
    - an object reference (a subscriber) is a natural number, and the
      objects themselves live in a store [heap] from references to
      handler tables;
    - [this.keys], a JS object used as a map, is a [gmap string bool];
    - the side effects of a method are changes of the instance state; what
      leaves the instance (a handler being called) is appended to a log
      kept next to the fields. *)

From Stdlib Require Import QArith Qround Qabs Qminmax Lqa Lia.
From stdpp Require Import base list strings gmap.

Local Open Scope Q_scope.

(** ** Numbers *)

(** [Math.round]: the nearest integer, a tie going up. *)
Definition Math_round (q : Q) : Q := inject_Z (Qfloor (q + (1 # 2))).

Definition Math_min (a b : Q) : Q := Qmin a b.
Definition Math_max (a b : Q) : Q := Qmax a b.
Definition Math_abs (a : Q) : Q := Qabs a.

(** [a > b] on numbers. *)
Definition gt (a b : Q) : bool := negb (Qle_bool a b).

(** [v || 0] where [v] is an array read: a missing entry ([undefined])
    and zero are both falsy. *)
Definition or_zero (v : option Q) : Q :=
  match v with
  | Some q => if Qeq_bool q 0 then 0 else q
  | None => 0
  end.

(** [v || false] where [v] is an array read. *)
Definition or_false (v : option bool) : bool :=
  match v with
  | Some b => b
  | None => false
  end.

(** ** The canvas *)

(** What [canvas.getBoundingClientRect()] returns. *)
Record DOMRect := {
  rect_left : Q;
  rect_top : Q;
  rect_width : Q;
  rect_height : Q
}.

(** An [HTMLCanvasElement]: its [width] and [height] attributes are
    unsigned integers. *)
Record Canvas := {
  getBoundingClientRect : DOMRect;
  canvas_width : N;
  canvas_height : N
}.

Definition of_N (n : N) : Q := inject_Z (Z.of_N n).

Definition getCanvasCoordinates (canvas : Canvas) (clientX clientY : Q) : Q * Q :=
  let rect := getBoundingClientRect canvas in
  let visualWidth := rect_width rect in
  let visualHeight := rect_height rect in
  let internalWidth := of_N (canvas_width canvas) in
  let internalHeight := of_N (canvas_height canvas) in
  let scaleX := internalWidth / visualWidth in
  let scaleY := internalHeight / visualHeight in
  let canvasX := (clientX - rect_left rect) * scaleX in
  let canvasY := (clientY - rect_top rect) * scaleY in
  let canvasX := Math_max 0 (Math_min (Math_round canvasX) internalWidth) in
  let canvasY := Math_max 0 (Math_min (Math_round canvasY) internalHeight) in
  (canvasX, canvasY).




(** ** Host events and devices *)

Record KeyboardEvent := { key : string }.

Record MouseEvent := { clientX : Q; clientY : Q; button : Z }.

Record Touch := { touch_clientX : Q; touch_clientY : Q }.

Record TouchEvent := { touches : list Touch; changedTouches : list Touch }.

Record GamepadButton := { pressed : bool; value : Q }.

Record Gamepad := { axes : list Q; buttons : list GamepadButton }.

Record GamepadEvent := { event_gamepad : Gamepad }.

(** What [navigator.getGamepads()] returns: nothing, or an array of slots
    of which each holds a device or [null]. *)
Definition GamepadList := option (list (option Gamepad)).

(** ** Subscribers *)

(** The names of the handlers that the class looks for on a subscriber. *)
Inductive HandlerName :=
  | onKeyDown | onKeyUp
  | onMouseMove | onMouseDown | onMouseUp | onMouseClick | onMouseEnter
  | onTouchStart | onTouchMove | onTouchEnd
  | onGamepadConnected | onGamepadButton | onGamepadAxis.

Record Stick := { stick_x : Q; stick_y : Q }.

(** The object handed to [onGamepadAxis]. *)
Record AxisData := { leftStick : Stick; rightStick : Stick; deadZone : Q }.

(** The argument lists with which handlers are called. *)
Inductive Args :=
  | args_key (e : KeyboardEvent)
  | args_xy (x y : Q)
  | args_xyb (x y : Q) (b : Z)
  | args_gamepad (e : GamepadEvent)
  | args_index (buttonIndex : nat)
  | args_axis (axisData : AxisData).

(** A reference to a subscriber object; two references are the same
    subscriber exactly when they are equal. *)
Definition SubId := nat.

(** A handler is code of the caller, and it may call back into the
    instance while a notification is under way.  The model follows the
    call back that changes the list a notification walks over and can only
    shorten it: a handler body is the sequence of references it passes to
    [unsubscribe] (empty for a handler that only observes).  A handler
    that subscribes further objects, throws, writes to the fields, or
    calls [update] or [destroy] is outside the model. *)
Definition Handler := Args -> list SubId.

(** A subscriber object: a handler name is absent or bound to a handler. *)
Definition Subscriber := HandlerName -> option Handler.

(** ** The instance *)

Record MouseState := { mouse_x : Q; mouse_y : Q; mouse_buttons : Q }.

(** The fields of a [MarkJSInput] object.  [listening] stands for the
    twelve DOM listeners, which are added together by the constructor and
    removed together by [destroy].  The last two fields are not fields of
    the class: [notified] records every notification the class starts
    (handler name and arguments), [called] every handler call it makes. *)
Record MarkJSInput := {
  canvas : Canvas;
  keys : gmap string bool;
  mouse : option MouseState;
  gamepad : option Gamepad;
  lastGamepadButtons : list bool;
  lastGamepadAxes : list Q;
  subscribers : list SubId;
  listening : bool;
  notified : list (HandlerName * Args);
  called : list (SubId * HandlerName * Args)
}.

Definition set_keys (v : gmap string bool) (w : MarkJSInput) : MarkJSInput :=
  {| canvas := canvas w; keys := v; mouse := mouse w; gamepad := gamepad w;
     lastGamepadButtons := lastGamepadButtons w;
     lastGamepadAxes := lastGamepadAxes w; subscribers := subscribers w;
     listening := listening w; notified := notified w; called := called w |}.

Definition set_gamepad (v : option Gamepad) (w : MarkJSInput) : MarkJSInput :=
  {| canvas := canvas w; keys := keys w; mouse := mouse w; gamepad := v;
     lastGamepadButtons := lastGamepadButtons w;
     lastGamepadAxes := lastGamepadAxes w; subscribers := subscribers w;
     listening := listening w; notified := notified w; called := called w |}.

Definition set_lastGamepadButtons (v : list bool) (w : MarkJSInput) : MarkJSInput :=
  {| canvas := canvas w; keys := keys w; mouse := mouse w; gamepad := gamepad w;
     lastGamepadButtons := v;
     lastGamepadAxes := lastGamepadAxes w; subscribers := subscribers w;
     listening := listening w; notified := notified w; called := called w |}.

Definition set_lastGamepadAxes (v : list Q) (w : MarkJSInput) : MarkJSInput :=
  {| canvas := canvas w; keys := keys w; mouse := mouse w; gamepad := gamepad w;
     lastGamepadButtons := lastGamepadButtons w;
     lastGamepadAxes := v; subscribers := subscribers w;
     listening := listening w; notified := notified w; called := called w |}.

Definition set_subscribers (v : list SubId) (w : MarkJSInput) : MarkJSInput :=
  {| canvas := canvas w; keys := keys w; mouse := mouse w; gamepad := gamepad w;
     lastGamepadButtons := lastGamepadButtons w;
     lastGamepadAxes := lastGamepadAxes w; subscribers := v;
     listening := listening w; notified := notified w; called := called w |}.

Definition log_notified (n : HandlerName) (a : Args) (w : MarkJSInput) : MarkJSInput :=
  {| canvas := canvas w; keys := keys w; mouse := mouse w; gamepad := gamepad w;
     lastGamepadButtons := lastGamepadButtons w;
     lastGamepadAxes := lastGamepadAxes w; subscribers := subscribers w;
     listening := listening w; notified := notified w ++ [(n, a)];
     called := called w |}.

Definition log_called (s : SubId) (n : HandlerName) (a : Args) (w : MarkJSInput)
    : MarkJSInput :=
  {| canvas := canvas w; keys := keys w; mouse := mouse w; gamepad := gamepad w;
     lastGamepadButtons := lastGamepadButtons w;
     lastGamepadAxes := lastGamepadAxes w; subscribers := subscribers w;
     listening := listening w; notified := notified w;
     called := called w ++ [(s, n, a)] |}.

(** [constructor(canvas)] *)
Definition new_MarkJSInput (c : Canvas) : MarkJSInput :=
  {| canvas := c; keys := ∅; mouse := None; gamepad := None;
     lastGamepadButtons := []; lastGamepadAxes := []; subscribers := [];
     listening := true; notified := []; called := [] |}.

(** ** The subscriber list *)

(** [Array.prototype.includes] on references. *)
Fixpoint includes (l : list SubId) (s : SubId) : bool :=
  match l with
  | [] => false
  | t :: l' => if Nat.eqb t s then true else includes l' s
  end.

(** [Array.prototype.indexOf] on references; [None] is the result -1. *)
Fixpoint indexOf (l : list SubId) (s : SubId) : option nat :=
  match l with
  | [] => None
  | t :: l' => if Nat.eqb t s then Some O else option_map S (indexOf l' s)
  end.

(** [l.splice(index, 1)] *)
Definition splice1 (index : nat) (l : list SubId) : list SubId := delete index l.

Definition unsubscribe (subscriber : SubId) (w : MarkJSInput) : MarkJSInput :=
  match indexOf (subscribers w) subscriber with
  | Some index => set_subscribers (splice1 index (subscribers w)) w
  | None => w
  end.

(** The object returned by [subscribe]: its [unsubscribe] method is a
    closure over the subscriber it was made for. *)
Record Subscription := { subscription_of : SubId }.

Definition Subscription_unsubscribe (h : Subscription) (w : MarkJSInput) : MarkJSInput :=
  unsubscribe (subscription_of h) w.

Definition subscribe (subscriber : SubId) (w : MarkJSInput) : Subscription * MarkJSInput :=
  let w :=
    if negb (includes (subscribers w) subscriber)
    then set_subscribers (subscribers w ++ [subscriber]) w
    else w in
  ({| subscription_of := subscriber |}, w).

(** ** Notifying the subscribers *)

Section Hub.

(** The subscriber objects, by reference. *)
Variable heap : SubId -> Subscriber.

(** The body of a handler: calls of [this.unsubscribe], in order. *)
Definition run_handler (targets : list SubId) (w : MarkJSInput) : MarkJSInput :=
  foldl (fun w t => unsubscribe t w) w targets.

(** The body of the loop, for a handler name [n]:
    [if (subscriber.n) { subscriber.n(...a); }] *)
Definition invoke (n : HandlerName) (a : Args) (subscriber : SubId) (w : MarkJSInput)
    : MarkJSInput :=
  match heap subscriber n with
  | Some handler => run_handler (handler a) (log_called subscriber n a w)
  | None => w
  end.

(** [for (const subscriber of this.subscribers) ...]: the array iterator
    keeps an index into the array itself, not into a copy, and at every
    step reads the array as it is then; it stops when the index has
    reached the length.  [steps] bounds the number of rounds; the loop is
    started with the length of the list, which is enough because a
    handler never makes the list longer ([for_of_steps] below). *)
Fixpoint for_of (steps index : nat) (n : HandlerName) (a : Args) (w : MarkJSInput)
    : MarkJSInput :=
  match steps with
  | O => w
  | S steps' =>
      match subscribers w !! index with
      | Some subscriber => for_of steps' (S index) n a (invoke n a subscriber w)
      | None => w
      end
  end.

(** The loop that every [_handle...] method ends with. *)
Definition notify (n : HandlerName) (a : Args) (w : MarkJSInput) : MarkJSInput :=
  let w := log_notified n a w in
  for_of (length (subscribers w)) 0 n a w.

(** ** Keyboard, mouse and touch *)

Definition _handleKeyDown (e : KeyboardEvent) (w : MarkJSInput) : MarkJSInput :=
  let w := set_keys (<[key e := true]> (keys w)) w in
  notify onKeyDown (args_key e) w.

Definition _handleKeyUp (e : KeyboardEvent) (w : MarkJSInput) : MarkJSInput :=
  let w := set_keys (<[key e := false]> (keys w)) w in
  notify onKeyUp (args_key e) w.

Definition _handleMouseMove (e : MouseEvent) (w : MarkJSInput) : MarkJSInput :=
  let pos := getCanvasCoordinates (canvas w) (clientX e) (clientY e) in
  notify onMouseMove (args_xy (fst pos) (snd pos)) w.

Definition _handleMouseDown (e : MouseEvent) (w : MarkJSInput) : MarkJSInput :=
  let pos := getCanvasCoordinates (canvas w) (clientX e) (clientY e) in
  notify onMouseDown (args_xyb (fst pos) (snd pos) (button e)) w.

Definition _handleMouseUp (e : MouseEvent) (w : MarkJSInput) : MarkJSInput :=
  let pos := getCanvasCoordinates (canvas w) (clientX e) (clientY e) in
  notify onMouseUp (args_xyb (fst pos) (snd pos) (button e)) w.

Definition _handleMouseClick (e : MouseEvent) (w : MarkJSInput) : MarkJSInput :=
  let pos := getCanvasCoordinates (canvas w) (clientX e) (clientY e) in
  notify onMouseClick (args_xyb (fst pos) (snd pos) (button e)) w.

(** [e.preventDefault()] acts on the host's event and leaves the instance
    as it is. *)
Definition _handleContextMenu (e : MouseEvent) (w : MarkJSInput) : MarkJSInput := w.

Definition _handleMouseEnter (e : MouseEvent) (w : MarkJSInput) : MarkJSInput :=
  let pos := getCanvasCoordinates (canvas w) (clientX e) (clientY e) in
  notify onMouseEnter (args_xy (fst pos) (snd pos)) w.

Definition _handleTouchStart (e : TouchEvent) (w : MarkJSInput) : MarkJSInput :=
  match touches e !! 0%nat with
  | Some t =>
      let pos := getCanvasCoordinates (canvas w) (touch_clientX t) (touch_clientY t) in
      notify onTouchStart (args_xy (fst pos) (snd pos)) w
  | None => w
  end.

Definition _handleTouchMove (e : TouchEvent) (w : MarkJSInput) : MarkJSInput :=
  match touches e !! 0%nat with
  | Some t =>
      let pos := getCanvasCoordinates (canvas w) (touch_clientX t) (touch_clientY t) in
      notify onTouchMove (args_xy (fst pos) (snd pos)) w
  | None => w
  end.

Definition _handleTouchEnd (e : TouchEvent) (w : MarkJSInput) : MarkJSInput :=
  match changedTouches e !! 0%nat with
  | Some t =>
      let pos := getCanvasCoordinates (canvas w) (touch_clientX t) (touch_clientY t) in
      notify onTouchEnd (args_xy (fst pos) (snd pos)) w
  | None => w
  end.

(** ** Gamepad *)

Definition _handleGamepadConnected (e : GamepadEvent) (w : MarkJSInput) : MarkJSInput :=
  notify onGamepadConnected (args_gamepad e) w.

Definition _handleGamepadButton (buttonIndex : nat) (w : MarkJSInput) : MarkJSInput :=
  notify onGamepadButton (args_index buttonIndex) w.

Definition _handleGamepadAxis (axisData : AxisData) (w : MarkJSInput) : MarkJSInput :=
  notify onGamepadAxis (args_axis axisData) w.

(** [for (let i = 0; i < gp.buttons.length; i++) ...], entered with the
    buttons from index [i] on. *)
Fixpoint button_loop (bs : list GamepadButton) (i : nat) (w : MarkJSInput)
    : MarkJSInput :=
  match bs with
  | [] => w
  | b :: bs' =>
      let wasPressed := or_false (lastGamepadButtons w !! i) in
      let w := if pressed b && negb wasPressed then _handleGamepadButton i w else w in
      button_loop bs' (S i) w
  end.

(** The body of the loop over the slots, for a slot that holds a device. *)
Definition poll_gamepad (gp : Gamepad) (w : MarkJSInput) : MarkJSInput :=
  let w := set_gamepad (Some gp) w in
  let deadZone := 3 # 10 in
  let leftStickX := or_zero (axes gp !! 0%nat) in
  let leftStickY := or_zero (axes gp !! 1%nat) in
  let lastLeftStickX := or_zero (lastGamepadAxes w !! 0%nat) in
  let lastLeftStickY := or_zero (lastGamepadAxes w !! 1%nat) in
  let rightStickX := or_zero (axes gp !! 2%nat) in
  let rightStickY := or_zero (axes gp !! 3%nat) in
  let lastRightStickX := or_zero (lastGamepadAxes w !! 2%nat) in
  let lastRightStickY := or_zero (lastGamepadAxes w !! 3%nat) in
  let w :=
    if gt (Math_abs (leftStickX - lastLeftStickX)) (1 # 10)
       || gt (Math_abs (leftStickY - lastLeftStickY)) (1 # 10)
       || gt (Math_abs (rightStickX - lastRightStickX)) (1 # 10)
       || gt (Math_abs (rightStickY - lastRightStickY)) (1 # 10)
    then
      _handleGamepadAxis
        {| leftStick := {| stick_x := leftStickX; stick_y := leftStickY |};
           rightStick := {| stick_x := rightStickX; stick_y := rightStickY |};
           deadZone := deadZone |} w
    else w in
  let w := set_lastGamepadAxes (axes gp) w in
  let w := button_loop (buttons gp) 0 w in
  set_lastGamepadButtons (map pressed (buttons gp)) w.

(** [for (let gp of gamepads) { if (gp) { ...; break; } }] *)
Fixpoint poll_slots (slots : list (option Gamepad)) (w : MarkJSInput) : MarkJSInput :=
  match slots with
  | [] => w
  | Some gp :: _ => poll_gamepad gp w
  | None :: slots' => poll_slots slots' w
  end.

(** [updateGamepad()], given what [navigator.getGamepads()] returns. *)
Definition updateGamepad (gamepads : GamepadList) (w : MarkJSInput) : MarkJSInput :=
  match gamepads with
  | None => w
  | Some slots => poll_slots slots w
  end.

Definition update (gamepads : GamepadList) (w : MarkJSInput) : MarkJSInput :=
  updateGamepad gamepads w.

Definition destroy (w : MarkJSInput) : MarkJSInput :=
  {| canvas := canvas w;
     listening := false;
     subscribers := [];
     keys := ∅;
     mouse := Some {| mouse_x := 0; mouse_y := 0; mouse_buttons := 0 |};
     gamepad := None;
     lastGamepadButtons := [];
     lastGamepadAxes := [];
     notified := notified w;
     called := called w |}.

(** ** The instance in use *)

(** The events that the host delivers to the listeners. *)
Inductive HostEvent :=
  | keydown (e : KeyboardEvent)
  | keyup (e : KeyboardEvent)
  | mousemove (e : MouseEvent)
  | mousedown (e : MouseEvent)
  | mouseup (e : MouseEvent)
  | mouseenter (e : MouseEvent)
  | click (e : MouseEvent)
  | contextmenu (e : MouseEvent)
  | touchstart (e : TouchEvent)
  | touchmove (e : TouchEvent)
  | touchend (e : TouchEvent)
  | gamepadconnected (e : GamepadEvent).

(** A listener runs while it is registered. *)
Definition dispatchEvent (ev : HostEvent) (w : MarkJSInput) : MarkJSInput :=
  if listening w then
    match ev with
    | keydown e => _handleKeyDown e w
    | keyup e => _handleKeyUp e w
    | mousemove e => _handleMouseMove e w
    | mousedown e => _handleMouseDown e w
    | mouseup e => _handleMouseUp e w
    | mouseenter e => _handleMouseEnter e w
    | click e => _handleMouseClick e w
    | contextmenu e => _handleContextMenu e w
    | touchstart e => _handleTouchStart e w
    | touchmove e => _handleTouchMove e w
    | touchend e => _handleTouchEnd e w
    | gamepadconnected e => _handleGamepadConnected e w
    end
  else w.

(** What can happen to an instance: a call of a public method by the
    caller, or an event from the host. *)
Inductive Op :=
  | op_subscribe (subscriber : SubId)
  | op_unsubscribe (subscriber : SubId)
  | op_subscription_unsubscribe (h : Subscription)
  | op_update (gamepads : GamepadList)
  | op_destroy
  | op_event (ev : HostEvent).

Definition step (w : MarkJSInput) (op : Op) : MarkJSInput :=
  match op with
  | op_subscribe s => snd (subscribe s w)
  | op_unsubscribe s => unsubscribe s w
  | op_subscription_unsubscribe h => Subscription_unsubscribe h w
  | op_update gamepads => update gamepads w
  | op_destroy => destroy w
  | op_event ev => dispatchEvent ev w
  end.

(** The state of an instance made for canvas [c], after [ops]. *)
Definition run (c : Canvas) (ops : list Op) : MarkJSInput :=
  foldl step (new_MarkJSInput c) ops.

End Hub.

(** ** Reading the state and the logs *)

(** The device that [updateGamepad] polls: the first slot that is not
    empty. *)
Fixpoint first_device (slots : list (option Gamepad)) : option Gamepad :=
  match slots with
  | [] => None
  | Some gp :: _ => Some gp
  | None :: slots' => first_device slots'
  end.

(** What was logged between an earlier state [w] and a later state [w']. *)
Definition notified_since (w w' : MarkJSInput) : list (HandlerName * Args) :=
  drop (length (notified w)) (notified w').

Definition called_since (w w' : MarkJSInput) : list (SubId * HandlerName * Args) :=
  drop (length (called w)) (called w').

Fixpoint count_if {A : Type} (p : A -> bool) (l : list A) : nat :=
  match l with
  | [] => O
  | x :: l' => if p x then S (count_if p l') else count_if p l'
  end.



(** The [onGamepadAxis] notifications of a log, in order. *)
Fixpoint axis_facts (log : list (HandlerName * Args)) : list AxisData :=
  match log with
  | [] => []
  | (onGamepadAxis, args_axis d) :: log' => d :: axis_facts log'
  | _ :: log' => axis_facts log'
  end.

(** How often a handler of subscriber [s] occurs in a log of calls. *)
Definition calls_to (s : SubId) (log : list (SubId * HandlerName * Args)) : nat :=
  count_if (fun c => Nat.eqb (fst (fst c)) s) log.

Definition has_handler (heap : SubId -> Subscriber) (n : HandlerName) (s : SubId) : bool :=
  match heap s n with
  | Some _ => true
  | None => false
  end.



(** The value of tracked axis [k] (0 to 3) in an array of axis values. *)
Definition tracked (l : list Q) (k : nat) : Q := or_zero (l !! k).

(** The four tracked values of a poll, as [onGamepadAxis] gets them. *)
Definition current_axes (gp : Gamepad) : AxisData :=
  {| leftStick := {| stick_x := tracked (axes gp) 0; stick_y := tracked (axes gp) 1 |};
     rightStick := {| stick_x := tracked (axes gp) 2; stick_y := tracked (axes gp) 3 |};
     deadZone := 3 # 10 |}.

(** The fields that are neither the subscriber list nor a log. *)
Definition inputs (w : MarkJSInput) :=
  (canvas w, keys w, mouse w, gamepad w, lastGamepadButtons w, lastGamepadAxes w,
   listening w).

(** ** Notions used in the statements *)

(** [w'] is [w] after handlers have run: the list may have lost entries
    and calls may have been logged; everything else is as it was. *)
Definition shrinks (w w' : MarkJSInput) : Prop :=
  inputs w' = inputs w
  /\ notified w' = notified w
  /\ subscribers w' `sublist_of` subscribers w
  /\ called w `prefix_of` called w'.


(** The absolute difference between tracked axis [k] of a poll and of the
    snapshot [last]. *)
Definition axis_delta (gp : Gamepad) (last : list Q) (k : nat) : Q :=
  Math_abs (tracked (axes gp) k - tracked last k).

(** The condition under which [updateGamepad] notifies [onGamepadAxis]. *)
Definition axis_moved (gp : Gamepad) (last : list Q) : bool :=
  gt (axis_delta gp last 0) (1 # 10) || gt (axis_delta gp last 1) (1 # 10)
  || gt (axis_delta gp last 2) (1 # 10) || gt (axis_delta gp last 3) (1 # 10).

(** The button notifications of a poll: one for each index, from [i] on,
    whose button is pressed and was not pressed in the snapshot [last]. *)
Fixpoint press_edges (bs : list GamepadButton) (last : list bool) (i : nat)
    : list (HandlerName * Args) :=
  match bs with
  | [] => []
  | b :: bs' =>
      (if pressed b && negb (or_false (last !! i))
       then [(onGamepadButton, args_index i)] else [])
      ++ press_edges bs' last (S i)
  end.

(** All notifications of a poll of [gp], in the order in which they are
    made. *)
Definition poll_facts (gp : Gamepad) (w : MarkJSInput) : list (HandlerName * Args) :=
  (if axis_moved gp (lastGamepadAxes w)
   then [(onGamepadAxis, args_axis (current_axes gp))] else [])
  ++ press_edges (buttons gp) (lastGamepadButtons w) 0.

(** What a poll does to a state, leaving open which subscribers remain
    and which calls were made. *)
Definition polled (gp : Gamepad) (w w' : MarkJSInput) : Prop :=
  canvas w' = canvas w /\ keys w' = keys w /\ mouse w' = mouse w
  /\ listening w' = listening w
  /\ gamepad w' = Some gp
  /\ lastGamepadAxes w' = axes gp
  /\ lastGamepadButtons w' = map pressed (buttons gp)
  /\ notified w' = notified w ++ poll_facts gp w
  /\ subscribers w' `sublist_of` subscribers w
  /\ called w `prefix_of` called w'.

(** How often subscriber [s] is on the list. *)
Definition registrations (s : SubId) (w : MarkJSInput) : nat :=
  count_if (fun t => Nat.eqb t s) (subscribers w).

(** No device has been polled since the instance was made or torn down:
    both snapshots are empty. *)
Definition unpolled (w : MarkJSInput) : Prop :=
  lastGamepadButtons w = [] /\ lastGamepadAxes w = [].

(** An operation other than an [update] that finds a device. *)
Definition finds_no_device (op : Op) : Prop :=
  match op with
  | op_update (Some slots) => first_device slots = None
  | _ => True
  end.

(** The coordinates in an argument list, if it has any, are integers
    within the canvas [c]. *)
Definition in_canvas (c : Canvas) (a : Args) : Prop :=
  match a with
  | args_xy x y | args_xyb x y _ =>
      exists i j : Z,
        x = inject_Z i /\ y = inject_Z j
        /\ (0 <= i <= Z.of_N (canvas_width c))%Z
        /\ (0 <= j <= Z.of_N (canvas_height c))%Z
  | _ => True
  end.

(** What holds of the logs of an instance made for canvas [c]. *)
Definition logs_ok (heap : SubId -> Subscriber) (c : Canvas) (w : MarkJSInput) : Prop :=
  canvas w = c
  /\ (forall n a, (n, a) ∈ notified w -> in_canvas c a)
  /\ (forall s n a, (s, n, a) ∈ called w ->
        (n, a) ∈ notified w /\ has_handler heap n s = true).


(** A sequence of polls, each of which finds the device of its turn. *)
Definition polls (heap : SubId -> Subscriber) (gps : list Gamepad) (w : MarkJSInput)
    : MarkJSInput :=
  foldl (fun w gp => update heap (Some [Some gp]) w) w gps.

(** Every poll of the sequence is within 0.1 of the poll before it (the
    first, of the snapshot [last]) on the four tracked axes. *)
Fixpoint slow_drift (last : list Q) (gps : list Gamepad) : Prop :=
  match gps with
  | [] => True
  | gp :: gps' =>
      (forall k, (k < 4)%nat -> axis_delta gp last k <= 1 # 10)
      /\ slow_drift (axes gp) gps'
  end.

(** [w'] comes from [w] by notifications: the list has at most lost
    entries, and every handler called in between belongs to a subscriber
    that was on the list of [w]. *)
Definition within (w w' : MarkJSInput) : Prop :=
  subscribers w' `sublist_of` subscribers w
  /\ exists new, called w' = called w ++ new
                 /\ forall s n a, (s, n, a) ∈ new -> s ∈ subscribers w.

(** ** Inputs used in examples *)

(** A canvas of 800 by 600 shown as 400 by 300 at (10, 20). *)
Definition canvas_800x600 : Canvas :=
  {| getBoundingClientRect :=
       {| rect_left := 10; rect_top := 20; rect_width := 400; rect_height := 300 |};
     canvas_width := 800; canvas_height := 600 |}.

(** Two subscribers with [onMouseMove]: the handler of 0 unsubscribes 0,
    the handler of 1 only observes. *)
Definition one_shot_heap : SubId -> Subscriber :=
  fun s n =>
    match n, s with
    | onMouseMove, O => Some (fun _ => [O])
    | onMouseMove, S O => Some (fun _ => [])
    | _, _ => None
    end.

(** Subscribers that all have [onMouseMove], and only observe. *)
Definition observers : SubId -> Subscriber :=
  fun s n =>
    match n with
    | onMouseMove => Some (fun _ => [])
    | _ => None
    end.

(** A new instance to which 0 and then 1 have subscribed. *)
Definition two_subscribers : MarkJSInput :=
  snd (subscribe 1%nat (snd (subscribe 0%nat (new_MarkJSInput canvas_800x600)))).

(** A mouse event five rendered pixels into the canvas on both axes. *)
Definition move_15_25 : MouseEvent := {| clientX := 15; clientY := 25; button := 0 |}.

Definition key_a : KeyboardEvent := {| key := "a" |}.

(** A device with its first button down and its left stick a quarter to
    the right. *)
Definition pad_a_pressed : Gamepad :=
  {| axes := [1 # 4; 0; 0; 0];
     buttons := [ {| pressed := true; value := 1 |}; {| pressed := false; value := 0 |} ] |}.

(** A device with its left stick at [x] and no buttons. *)
Definition pad_stick (x : Q) : Gamepad := {| axes := [x; 0; 0; 0]; buttons := [] |}.


(** * Properties *)

(** ** Coordinates *)

Lemma Qcompare_inject_Z (a b : Z) : (inject_Z a ?= inject_Z b) = (a ?= b)%Z.
Proof. unfold Qcompare; simpl. by rewrite !Z.mul_1_r. Qed.


(** On integers, [Math.max(0, Math.min(z, w))] is the integer one expects. *)
Lemma Math_max_min_Z (z w : Z) :
  Math_max 0 (Math_min (inject_Z z) (inject_Z w)) = inject_Z (Z.max 0 (Z.min z w)).
Proof.
  unfold Math_max, Math_min, Qmax, Qmin, GenericMinMax.gmax, GenericMinMax.gmin.
  rewrite Qcompare_inject_Z.
  change 0 with (inject_Z 0).
  destruct (Z.compare_spec z w) as [E|E|E];
    rewrite Qcompare_inject_Z;
    match goal with |- context [(0 ?= ?v)%Z] => destruct (Z.compare_spec 0 v) end;
    f_equal; lia.
Qed.


(** [Math.round] returns an integer at distance at most one half. *)
Lemma Math_round_nearest (q : Q) :
  Math_round q = inject_Z (Qfloor (q + (1 # 2))) /\ Qabs (Math_round q - q) <= 1 # 2.
Proof.
  split; [reflexivity|].
  unfold Math_round. apply Qabs_Qle_condition.
  pose proof (Qfloor_le (q + (1 # 2))) as Hlo.
  pose proof (Qlt_floor (q + (1 # 2))) as Hhi.
  rewrite inject_Z_plus in Hhi. change (inject_Z 1) with 1 in Hhi.
  split; lra.
Qed.

(** One axis of [getCanvasCoordinates]: [client] is the viewport
    coordinate, [origin] the left or top edge of the rendered box,
    [rendered] its width or height and [internal] the canvas width or
    height. *)
Section Axis.

Variables (client origin rendered : Q) (internal : N).
Hypothesis rendered_pos : 0 < rendered.

Let scaled := (client - origin) * (of_N internal / rendered).
Let code := Math_max 0 (Math_min (Math_round scaled) (of_N internal)).

Lemma of_N_nonneg : 0 <= of_N internal.
Proof. unfold of_N. change 0 with (inject_Z 0). rewrite <- Zle_Qle. lia. Qed.

Lemma scale_nonneg : 0 <= of_N internal / rendered.
Proof.
  unfold Qdiv. apply Qmult_le_0_compat; [apply of_N_nonneg|].
  apply Qlt_le_weak, Qinv_lt_0_compat, rendered_pos.
Qed.

Lemma axis_code_Z :
  code = inject_Z (Z.max 0 (Z.min (Qfloor (scaled + (1 # 2))) (Z.of_N internal))).
Proof. unfold code, Math_round, of_N. apply Math_max_min_Z. Qed.


Lemma axis_range :
  exists i : Z, code = inject_Z i /\ (0 <= i <= Z.of_N internal)%Z.
Proof. eexists. split; [apply axis_code_Z|]. lia. Qed.



End Axis.



(** ** The subscriber list *)

Lemma includes_elem_of (l : list SubId) (s : SubId) : includes l s = true <-> s ∈ l.
Proof.
  induction l as [|t l IH]; simpl.
  - split; [discriminate|]. by intros ?%elem_of_nil.
  - rewrite elem_of_cons. destruct (Nat.eqb_spec t s) as [->|Hne]; [tauto|].
    rewrite IH. split; [tauto|]. intros [->|H]; [done|exact H].
Qed.

Lemma indexOf_None (l : list SubId) (s : SubId) : indexOf l s = None <-> s ∉ l.
Proof.
  induction l as [|t l IH]; simpl.
  - split; [intros _; apply not_elem_of_nil | done].
  - rewrite not_elem_of_cons. destruct (Nat.eqb_spec t s) as [->|Hne].
    + split; [discriminate | tauto].
    + destruct (indexOf l s) as [i|]; simpl.
      * split; [discriminate|]. intros [_ H]. by apply IH in H.
      * split; [|done]. intros _. split; [done | by apply IH].
Qed.

Lemma indexOf_Some (l : list SubId) (s : SubId) (i : nat) :
  indexOf l s = Some i -> l !! i = Some s.
Proof.
  revert i. induction l as [|t l IH]; simpl; intros i; [discriminate|].
  destruct (Nat.eqb_spec t s) as [->|Hne].
  - by intros [= <-].
  - destruct (indexOf l s) as [j|]; simpl; [|discriminate].
    intros [= <-]. by apply IH.
Qed.

Lemma splice1_sublist (i : nat) (l : list SubId) : splice1 i l `sublist_of` l.
Proof. apply sublist_delete. Qed.

Lemma splice1_NoDup (i : nat) (l : list SubId) (s : SubId) :
  NoDup l -> l !! i = Some s -> s ∉ splice1 i l.
Proof.
  intros Hnd Hi. unfold splice1. rewrite delete_take_drop.
  rewrite <- (take_drop_middle l i s Hi) in Hnd.
  apply NoDup_app in Hnd as (_ & Hl & Hr). apply NoDup_cons in Hr as [Hr _].
  rewrite elem_of_app. intros [H|H]; [|done]. apply (Hl s H). by left.
Qed.

(** ** What handlers leave alone *)

(** From [inputs w' = inputs w], one equation per field. *)
Ltac fields H :=
  unfold inputs in H; simpl in H; injection H as ? ? ? ? ? ? ?.

Lemma shrinks_refl (w : MarkJSInput) : shrinks w w.
Proof. by repeat split. Qed.

Lemma shrinks_trans (w1 w2 w3 : MarkJSInput) :
  shrinks w1 w2 -> shrinks w2 w3 -> shrinks w1 w3.
Proof.
  intros (Hi & Hn & Hs & Hc) (Hi' & Hn' & Hs' & Hc').
  repeat split; [congruence | congruence | by etrans | by etrans].
Qed.

Lemma unsubscribe_absent (s : SubId) (w : MarkJSInput) :
  s ∉ subscribers w -> unsubscribe s w = w.
Proof. intros H%indexOf_None. unfold unsubscribe. by rewrite H. Qed.

Lemma unsubscribe_shrinks (s : SubId) (w : MarkJSInput) : shrinks w (unsubscribe s w).
Proof.
  unfold unsubscribe. destruct (indexOf (subscribers w) s); [|apply shrinks_refl].
  repeat split; simpl; [apply splice1_sublist | done].
Qed.

Lemma unsubscribe_removes (s : SubId) (w : MarkJSInput) :
  NoDup (subscribers w) -> s ∉ subscribers (unsubscribe s w).
Proof.
  intros Hnd. unfold unsubscribe.
  destruct (indexOf (subscribers w) s) as [i|] eqn:E; simpl.
  - apply splice1_NoDup; [done | by apply indexOf_Some].
  - by apply indexOf_None.
Qed.

Lemma unsubscribe_other (s t : SubId) (w : MarkJSInput) :
  t <> s -> t ∈ subscribers (unsubscribe s w) <-> t ∈ subscribers w.
Proof.
  intros Hne. unfold unsubscribe.
  destruct (indexOf (subscribers w) s) as [i|] eqn:E; simpl; [|done].
  apply indexOf_Some in E. unfold splice1. rewrite delete_take_drop.
  rewrite <- (take_drop_middle _ _ _ E) at 3.
  rewrite !elem_of_app, elem_of_cons.
  split; [tauto | intros [?|[?|?]]; [tauto | done | tauto]].
Qed.

Lemma shrinks_NoDup (w w' : MarkJSInput) :
  shrinks w w' -> NoDup (subscribers w) -> NoDup (subscribers w').
Proof. intros (_ & _ & Hs & _) H. by eapply sublist_NoDup. Qed.

Lemma shrinks_length (w w' : MarkJSInput) :
  shrinks w w' -> (length (subscribers w') <= length (subscribers w))%nat.
Proof. intros (_ & _ & Hs & _). by apply sublist_length. Qed.

Section Notify.

Variable heap : SubId -> Subscriber.

Lemma run_handler_shrinks (targets : list SubId) (w : MarkJSInput) :
  shrinks w (run_handler targets w).
Proof.
  revert w. induction targets as [|t targets IH]; intros w; simpl.
  - apply shrinks_refl.
  - eapply shrinks_trans; [apply unsubscribe_shrinks | apply IH].
Qed.

Lemma log_called_shrinks (s : SubId) (n : HandlerName) (a : Args) (w : MarkJSInput) :
  shrinks w (log_called s n a w).
Proof. repeat split; simpl; [done | by apply prefix_app_r]. Qed.

Lemma invoke_shrinks (n : HandlerName) (a : Args) (s : SubId) (w : MarkJSInput) :
  shrinks w (invoke heap n a s w).
Proof.
  unfold invoke. destruct (heap s n); [|apply shrinks_refl].
  eapply shrinks_trans; [apply log_called_shrinks | apply run_handler_shrinks].
Qed.

Lemma for_of_shrinks (steps index : nat) (n : HandlerName) (a : Args) (w : MarkJSInput) :
  shrinks w (for_of heap steps index n a w).
Proof.
  revert index w. induction steps as [|steps IH]; intros index w; simpl.
  - apply shrinks_refl.
  - destruct (subscribers w !! index); [|apply shrinks_refl].
    eapply shrinks_trans; [apply invoke_shrinks | apply IH].
Qed.

(** The bound on the rounds of [for_of] is never what ends the loop:
    once [steps] covers what is left of the list, one more round changes
    nothing. *)
Lemma for_of_steps (steps index : nat) (n : HandlerName) (a : Args) (w : MarkJSInput) :
  (length (subscribers w) <= index + steps)%nat ->
  for_of heap (S steps) index n a w = for_of heap steps index n a w.
Proof.
  revert index w. induction steps as [|steps IH]; intros index w Hlen.
  - simpl. rewrite lookup_ge_None_2; [done | lia].
  - change (for_of heap (S (S steps)) index n a w)
      with (match subscribers w !! index with
            | Some s => for_of heap (S steps) (S index) n a (invoke heap n a s w)
            | None => w
            end).
    change (for_of heap (S steps) index n a w)
      with (match subscribers w !! index with
            | Some s => for_of heap steps (S index) n a (invoke heap n a s w)
            | None => w
            end).
    destruct (subscribers w !! index) as [s|]; [|done].
    apply IH. pose proof (shrinks_length _ _ (invoke_shrinks n a s w)). lia.
Qed.

Lemma for_of_more_steps (extra : nat) (n : HandlerName) (a : Args) (w : MarkJSInput) :
  for_of heap (length (subscribers w) + extra) 0 n a w
  = for_of heap (length (subscribers w)) 0 n a w.
Proof.
  induction extra as [|extra IH]; [by rewrite Nat.add_0_r|].
  rewrite Nat.add_succ_r, for_of_steps; [exact IH | lia].
Qed.

Lemma notify_shrinks (n : HandlerName) (a : Args) (w : MarkJSInput) :
  shrinks (log_notified n a w) (notify heap n a w).
Proof. apply for_of_shrinks. Qed.

Lemma notify_inputs (n : HandlerName) (a : Args) (w : MarkJSInput) :
  inputs (notify heap n a w) = inputs w.
Proof. by destruct (notify_shrinks n a w) as (-> & _). Qed.

Lemma notify_notified (n : HandlerName) (a : Args) (w : MarkJSInput) :
  notified (notify heap n a w) = notified w ++ [(n, a)].
Proof. by destruct (notify_shrinks n a w) as (_ & -> & _). Qed.

Lemma notify_subscribers (n : HandlerName) (a : Args) (w : MarkJSInput) :
  subscribers (notify heap n a w) `sublist_of` subscribers w.
Proof. by destruct (notify_shrinks n a w) as (_ & _ & H & _). Qed.

Lemma notify_called (n : HandlerName) (a : Args) (w : MarkJSInput) :
  called w `prefix_of` called (notify heap n a w).
Proof. by destruct (notify_shrinks n a w) as (_ & _ & _ & H). Qed.

End Notify.

(** ** A notification that is not disturbed *)


Lemma count_if_map {A B : Type} (f : A -> B) (p : B -> bool) (l : list A) :
  count_if p (map f l) = count_if (fun x => p (f x)) l.
Proof. induction l as [|x l IH]; simpl; [done|]. by rewrite IH. Qed.

Lemma count_if_absent (l : list SubId) (s : SubId) :
  s ∉ l -> count_if (fun t => Nat.eqb t s) l = O.
Proof.
  induction l as [|t l IH]; simpl; [done|].
  rewrite not_elem_of_cons. intros [Hne H].
  destruct (Nat.eqb_spec t s); [congruence | by apply IH].
Qed.

Lemma count_if_NoDup (l : list SubId) (s : SubId) :
  NoDup l -> s ∈ l -> count_if (fun t => Nat.eqb t s) l = 1%nat.
Proof.
  induction l as [|t l IH]; simpl; intros Hnd Hin.
  - by apply elem_of_nil in Hin.
  - apply NoDup_cons in Hnd as [Ht Hnd].
    destruct (Nat.eqb_spec t s) as [->|Hne].
    + by rewrite count_if_absent.
    + apply elem_of_cons in Hin as [->|Hin]; [done | by apply IH].
Qed.

Lemma elem_of_filter_bool (p : SubId -> bool) (l : list SubId) (s : SubId) :
  s ∈ List.filter p l <-> s ∈ l /\ p s = true.
Proof. rewrite !list_elem_of_In. apply filter_In. Qed.

Section FanOut.

Variable heap : SubId -> Subscriber.




End FanOut.


(** ** Polling the gamepad *)

Lemma gt_lt (a b : Q) : gt a b = true <-> b < a.
Proof.
  unfold gt. rewrite negb_true_iff, <- not_true_iff_false, Qle_bool_iff.
  split; [apply Qnot_le_lt | apply Qlt_not_le].
Qed.

Lemma axis_moved_iff (gp : Gamepad) (last : list Q) :
  axis_moved gp last = true
  <-> exists k, (k < 4)%nat /\ 1 # 10 < axis_delta gp last k.
Proof.
  unfold axis_moved. rewrite !orb_true_iff, !gt_lt. split.
  - intros [[[H|H]|H]|H];
      [exists 0%nat | exists 1%nat | exists 2%nat | exists 3%nat];
      (split; [lia | exact H]).
  - intros (k & Hk & H).
    destruct k as [|[|[|[|k]]]]; [tauto | tauto | tauto | tauto | lia].
Qed.

Lemma axis_still_iff (gp : Gamepad) (last : list Q) :
  axis_moved gp last = false
  <-> forall k, (k < 4)%nat -> axis_delta gp last k <= 1 # 10.
Proof.
  rewrite <- not_true_iff_false, axis_moved_iff. split.
  - intros H k Hk. apply Qnot_lt_le. intros Hlt. apply H. eauto.
  - intros H (k & Hk & Hlt). by apply (Qlt_not_le _ _ Hlt), H.
Qed.

Lemma axis_facts_app (l1 l2 : list (HandlerName * Args)) :
  axis_facts (l1 ++ l2) = axis_facts l1 ++ axis_facts l2.
Proof.
  induction l1 as [|[n a] l1 IH]; simpl; [done|].
  destruct n, a; simpl; by rewrite ?IH.
Qed.

Lemma axis_facts_press_edges (bs : list GamepadButton) (last : list bool) (i : nat) :
  axis_facts (press_edges bs last i) = [].
Proof.
  revert i. induction bs as [|b bs IH]; intros i; simpl; [done|].
  rewrite axis_facts_app, IH. by destruct (pressed b && negb (or_false (last !! i))).
Qed.


Section Poll.

Variable heap : SubId -> Subscriber.

Lemma button_loop_spec (bs : list GamepadButton) (i : nat) (w : MarkJSInput) :
  let w' := button_loop heap bs i w in
  inputs w' = inputs w
  /\ notified w' = notified w ++ press_edges bs (lastGamepadButtons w) i
  /\ subscribers w' `sublist_of` subscribers w
  /\ called w `prefix_of` called w'.
Proof.
  revert i w. induction bs as [|b bs IH]; intros i w; simpl.
  - by rewrite app_nil_r.
  - set (c := pressed b && negb (or_false (lastGamepadButtons w !! i))).
    set (w1 := if c then _handleGamepadButton heap i w else w).
    assert (inputs w1 = inputs w
            /\ notified w1 = notified w
                 ++ (if c then [(onGamepadButton, args_index i)] else [])
            /\ subscribers w1 `sublist_of` subscribers w
            /\ called w `prefix_of` called w1) as (Hi & Hn & Hs & Hc).
    { subst w1. destruct c.
      - unfold _handleGamepadButton.
        split; [apply notify_inputs|]. split; [apply notify_notified|].
        split; [apply notify_subscribers | apply notify_called].
      - by rewrite app_nil_r. }
    destruct (IH (S i) w1) as (Hi' & Hn' & Hs' & Hc').
    split; [congruence|]. split; [|split; by etrans].
    rewrite Hn', Hn, <- app_assoc. do 2 f_equal.
    fields Hi. congruence.
Qed.

Lemma poll_gamepad_spec (gp : Gamepad) (w : MarkJSInput) :
  polled gp w (poll_gamepad heap gp w).
Proof.
  unfold poll_gamepad, polled, poll_facts.
  change (or_zero (axes gp !! ?k)) with (tracked (axes gp) k).
  change (or_zero (lastGamepadAxes (set_gamepad (Some gp) w) !! ?k))
    with (tracked (lastGamepadAxes w) k).
  fold (axis_delta gp (lastGamepadAxes w) 0) (axis_delta gp (lastGamepadAxes w) 1)
       (axis_delta gp (lastGamepadAxes w) 2) (axis_delta gp (lastGamepadAxes w) 3).
  fold (axis_moved gp (lastGamepadAxes w)).
  fold (current_axes gp).
  set (m := axis_moved gp (lastGamepadAxes w)).
  set (w1 := if m then _ else _).
  assert (inputs w1 = inputs (set_gamepad (Some gp) w)
          /\ notified w1 = notified w
               ++ (if m then [(onGamepadAxis, args_axis (current_axes gp))] else [])
          /\ subscribers w1 `sublist_of` subscribers w
          /\ called w `prefix_of` called w1) as (Hi & Hn & Hs & Hc).
  { subst w1. destruct m.
    - unfold _handleGamepadAxis.
      split; [apply notify_inputs|].
      split; [exact (notify_notified heap _ _ (set_gamepad (Some gp) w))|].
      split; [exact (notify_subscribers heap _ _ (set_gamepad (Some gp) w))
             | exact (notify_called heap _ _ (set_gamepad (Some gp) w))].
    - by rewrite app_nil_r. }
  destruct (button_loop_spec (buttons gp) 0 (set_lastGamepadAxes (axes gp) w1))
    as (Hi' & Hn' & Hs' & Hc').
  fields Hi. fields Hi'. simpl in *.
  repeat split; try congruence.
  - rewrite Hn', Hn, <- app_assoc. do 3 f_equal. congruence.
  - by etrans.
  - by etrans.
Qed.

Lemma poll_slots_first_device (slots : list (option Gamepad)) (w : MarkJSInput) :
  poll_slots heap slots w
  = match first_device slots with
    | Some gp => poll_gamepad heap gp w
    | None => w
    end.
Proof. induction slots as [|[gp|] slots IH]; simpl; done. Qed.

Lemma update_polled (slots : list (option Gamepad)) (gp : Gamepad) (w : MarkJSInput) :
  first_device slots = Some gp -> polled gp w (update heap (Some slots) w).
Proof.
  intros H. unfold update, updateGamepad. rewrite poll_slots_first_device, H.
  apply poll_gamepad_spec.
Qed.

Lemma update_notified (slots : list (option Gamepad)) (gp : Gamepad) (w : MarkJSInput) :
  first_device slots = Some gp ->
  notified (update heap (Some slots) w) = notified w ++ poll_facts gp w
  /\ notified_since w (update heap (Some slots) w) = poll_facts gp w.
Proof.
  intros H. destruct (update_polled slots gp w H) as (_&_&_&_&_&_&_&Hn&_).
  split; [exact Hn|]. unfold notified_since. by rewrite Hn, drop_app_length.
Qed.


Lemma poll_facts_axis_facts (gp : Gamepad) (w : MarkJSInput) :
  axis_facts (poll_facts gp w)
  = if axis_moved gp (lastGamepadAxes w) then [current_axes gp] else [].
Proof.
  unfold poll_facts. rewrite axis_facts_app, axis_facts_press_edges, app_nil_r.
  by destruct (axis_moved gp (lastGamepadAxes w)).
Qed.


End Poll.





(** ** Updates that find no device, or no subscriber *)

Lemma first_device_empty (slots : list (option Gamepad)) :
  Forall (fun slot => slot = None) slots -> first_device slots = None.
Proof. induction 1 as [|slot slots -> _ IH]; simpl; done. Qed.

(** C8.  An [update] for which [navigator.getGamepads()] returns nothing,
    or an array of empty slots only, leaves the instance exactly as it
    was: no field changes, nothing is notified, no handler is called. *)
Theorem update_without_device (heap : SubId -> Subscriber) (w : MarkJSInput) :
  update heap None w = w
  /\ forall slots, Forall (fun slot => slot = None) slots ->
       update heap (Some slots) w = w.
Proof.
  split; [reflexivity|]. intros slots H%first_device_empty.
  unfold update, updateGamepad. by rewrite poll_slots_first_device, H.
Qed.

Lemma update_without_device_witness :
  update (fun _ _ => None) (Some [None; None; None; None])
    (new_MarkJSInput canvas_800x600)
  = new_MarkJSInput canvas_800x600.
Proof.
  apply (update_without_device (fun _ _ => None) (new_MarkJSInput canvas_800x600)).
  repeat constructor.
Defined.





Section Empty.

Variable heap : SubId -> Subscriber.

Lemma notify_no_subscribers (n : HandlerName) (a : Args) (w : MarkJSInput) :
  subscribers w = [] -> notify heap n a w = log_notified n a w.
Proof. intros H. unfold notify. simpl. by rewrite H. Qed.

Lemma button_loop_no_subscribers (bs : list GamepadButton) (i : nat) (w : MarkJSInput) :
  subscribers w = [] ->
  subscribers (button_loop heap bs i w) = [] /\ called (button_loop heap bs i w) = called w.
Proof.
  revert i w. induction bs as [|b bs IH]; intros i w H; simpl; [done|].
  destruct (pressed b && negb (or_false (lastGamepadButtons w !! i))).
  - unfold _handleGamepadButton. rewrite notify_no_subscribers by done.
    by apply (IH (S i) (log_notified onGamepadButton (args_index i) w)).
  - by apply IH.
Qed.

Lemma update_no_subscribers (gamepads : GamepadList) (w : MarkJSInput) :
  subscribers w = [] ->
  subscribers (update heap gamepads w) = [] /\ called (update heap gamepads w) = called w.
Proof.
  intros H. destruct gamepads as [slots|]; [|done].
  unfold update, updateGamepad. rewrite poll_slots_first_device.
  destruct (first_device slots) as [gp|]; [|done].
  unfold poll_gamepad. cbv zeta.
  match goal with |- context [button_loop heap _ _ ?w1] => set (w1' := w1) end.
  assert (subscribers w1' = [] /\ called w1' = called w) as [H1 H2].
  { subst w1'. simpl. destruct (_ || _); [|done].
    unfold _handleGamepadAxis. by rewrite notify_no_subscribers. }
  destruct (button_loop_no_subscribers (buttons gp) 0 w1' H1) as [Hs Hc].
  simpl. by rewrite Hs, Hc.
Qed.

(** An update reads the two snapshots and nothing else of the fields. *)
Lemma update_unpolled (gamepads : GamepadList) (w1 w2 : MarkJSInput) :
  unpolled w1 -> unpolled w2 -> keys w1 = keys w2 -> gamepad w1 = gamepad w2 ->
  let a := update heap gamepads w1 in
  let b := update heap gamepads w2 in
  notified_since w1 a = notified_since w2 b
  /\ keys a = keys b /\ gamepad a = gamepad b
  /\ lastGamepadButtons a = lastGamepadButtons b
  /\ lastGamepadAxes a = lastGamepadAxes b.
Proof.
  intros [Hb1 Ha1] [Hb2 Ha2] Hk Hg a b. subst a b.
  destruct gamepads as [slots|].
  - destruct (first_device slots) as [gp|] eqn:E.
    + destruct (update_notified heap slots gp w1 E) as [_ ->].
      destruct (update_notified heap slots gp w2 E) as [_ ->].
      destruct (update_polled heap slots gp w1 E) as (_&->&_&_&->&->&->&_).
      destruct (update_polled heap slots gp w2 E) as (_&->&_&_&->&->&->&_).
      unfold poll_facts. by rewrite Hb1, Hb2, Ha1, Ha2.
    + unfold update, updateGamepad. rewrite !poll_slots_first_device, E.
      unfold notified_since. rewrite !drop_all. by rewrite Hb1, Hb2, Ha1, Ha2.
  - simpl. unfold notified_since. rewrite !drop_all. by rewrite Hb1, Hb2, Ha1, Ha2.
Qed.

End Empty.

(** C6.  [destroy] empties the subscriber list, the key table and the
    gamepad state ([gamepad], [lastGamepadButtons], [lastGamepadAxes]); a
    second [destroy] changes nothing; and an [update] after [destroy]
    does what the same [update] does on a new instance: the same
    notifications, the same (no) handler calls, and the same subscriber
    list, key table and gamepad state afterwards.  (The two instances
    still differ in what [update] does not touch: [destroy] sets
    [mouse] and removes the listeners.) *)
Theorem destroy_resets (heap : SubId -> Subscriber) (c : Canvas) (w : MarkJSInput)
    (gamepads : GamepadList) :
  (subscribers (destroy w) = [] /\ keys (destroy w) = ∅
   /\ gamepad (destroy w) = None /\ lastGamepadButtons (destroy w) = []
   /\ lastGamepadAxes (destroy w) = [])
  /\ destroy (destroy w) = destroy w
  /\ let a := update heap gamepads (destroy w) in
     let b := update heap gamepads (new_MarkJSInput c) in
     notified_since (destroy w) a = notified_since (new_MarkJSInput c) b
     /\ called_since (destroy w) a = called_since (new_MarkJSInput c) b
     /\ subscribers a = subscribers b
     /\ keys a = keys b /\ gamepad a = gamepad b
     /\ lastGamepadButtons a = lastGamepadButtons b
     /\ lastGamepadAxes a = lastGamepadAxes b.
Proof.
  split; [done|]. split; [done|]. intros a b. subst a b.
  destruct (update_no_subscribers heap gamepads (destroy w)) as [Hs1 Hc1]; [done|].
  destruct (update_no_subscribers heap gamepads (new_MarkJSInput c)) as [Hs2 Hc2]; [done|].
  destruct (update_unpolled heap gamepads (destroy w) (new_MarkJSInput c))
    as (Hn & Hk & Hg & Hb & Ha); [done..|].
  unfold called_since. rewrite Hc1, Hc2, !drop_all, Hs1, Hs2. done.
Qed.

Lemma NoDup_two_subscribers : NoDup (subscribers two_subscribers).
Proof.
  apply NoDup_cons_2; [|apply NoDup_singleton].
  rewrite list_elem_of_singleton. discriminate.
Qed.

Lemma _handleMouseMove_notify (heap : SubId -> Subscriber) (e : MouseEvent)
    (w : MarkJSInput) :
  _handleMouseMove heap e w
  = notify heap onMouseMove
      (args_xy (fst (getCanvasCoordinates (canvas w) (clientX e) (clientY e)))
               (snd (getCanvasCoordinates (canvas w) (clientX e) (clientY e)))) w.
Proof. reflexivity. Qed.

(** ** Subscribing *)

Lemma subscribe_present (s : SubId) (w : MarkJSInput) :
  s ∈ subscribers w -> snd (subscribe s w) = w.
Proof. intros H%includes_elem_of. unfold subscribe. by rewrite H. Qed.

Lemma subscribe_elem_of (s : SubId) (w : MarkJSInput) :
  s ∈ subscribers (snd (subscribe s w)).
Proof.
  unfold subscribe. destruct (includes (subscribers w) s) eqn:E; simpl.
  - by apply includes_elem_of.
  - apply elem_of_app. right. by left.
Qed.

Lemma subscribe_other (s t : SubId) (w : MarkJSInput) :
  t <> s -> t ∈ subscribers (snd (subscribe s w)) <-> t ∈ subscribers w.
Proof.
  intros Hne. unfold subscribe. destruct (includes (subscribers w) s); simpl; [done|].
  rewrite elem_of_app, list_elem_of_singleton. tauto.
Qed.

Lemma subscribe_NoDup (s : SubId) (w : MarkJSInput) :
  NoDup (subscribers w) -> NoDup (subscribers (snd (subscribe s w))).
Proof.
  intros Hnd. unfold subscribe. destruct (includes (subscribers w) s) eqn:E; simpl; [done|].
  apply NoDup_app. split; [done|]. split; [|apply NoDup_singleton].
  intros t Ht ->%list_elem_of_singleton.
  apply includes_elem_of in Ht. congruence.
Qed.

Lemma registrations_NoDup (s : SubId) (w : MarkJSInput) :
  NoDup (subscribers w) -> s ∈ subscribers w -> registrations s w = 1%nat.
Proof. apply count_if_NoDup. Qed.

Lemma registrations_absent (s : SubId) (w : MarkJSInput) :
  s ∉ subscribers w -> registrations s w = O.
Proof. apply count_if_absent. Qed.

Lemma unsubscribe_NoDup (s : SubId) (w : MarkJSInput) :
  NoDup (subscribers w) -> NoDup (subscribers (unsubscribe s w)).
Proof. apply shrinks_NoDup, unsubscribe_shrinks. Qed.

Lemma subscribe_unsubscribe_NoDup (s : SubId) (w : MarkJSInput) :
  NoDup (subscribers w) ->
  let h := fst (subscribe s w) in
  let w1 := snd (subscribe s w) in
  (s ∈ subscribers w -> w1 = w)
  /\ registrations s w1 = 1%nat
  /\ snd (subscribe s w1) = w1
  /\ (forall w', Subscription_unsubscribe h w' = unsubscribe s w')
  /\ registrations s (Subscription_unsubscribe h w1) = O
  /\ (s ∉ subscribers w -> unsubscribe s w = w)
  /\ registrations s (unsubscribe s w) = O
  /\ unsubscribe s (unsubscribe s w) = unsubscribe s w
  /\ Subscription_unsubscribe h (Subscription_unsubscribe h w1)
     = Subscription_unsubscribe h w1
  /\ (forall t, t <> s ->
        (t ∈ subscribers w1 <-> t ∈ subscribers w)
        /\ (t ∈ subscribers (unsubscribe s w) <-> t ∈ subscribers w)).
Proof.
  intros Hnd h w1. subst h w1.
  pose proof (subscribe_NoDup s w Hnd) as Hnd1.
  pose proof (subscribe_elem_of s w) as Hin1.
  assert (forall w', NoDup (subscribers w') ->
            unsubscribe s (unsubscribe s w') = unsubscribe s w') as Hagain.
  { intros w' H. by apply unsubscribe_absent, unsubscribe_removes. }
  repeat split.
  - apply subscribe_present.
  - by apply registrations_NoDup.
  - by apply subscribe_present.
  - by apply registrations_absent, unsubscribe_removes.
  - apply unsubscribe_absent.
  - by apply registrations_absent, unsubscribe_removes.
  - by apply Hagain.
  - by apply Hagain.
  - by apply subscribe_other.
  - by apply subscribe_other.
  - by apply unsubscribe_other.
  - by apply unsubscribe_other.
Qed.

(** ** Operations, one at a time *)

Section Steps.

Variable heap : SubId -> Subscriber.

Lemma update_shape (gamepads : GamepadList) (w : MarkJSInput) :
  update heap gamepads w = w \/ exists gp, polled gp w (update heap gamepads w).
Proof.
  destruct gamepads as [slots|]; [|by left].
  destruct (first_device slots) as [gp|] eqn:E.
  - right. exists gp. by apply update_polled.
  - left. unfold update, updateGamepad. by rewrite poll_slots_first_device, E.
Qed.

(** What an event does, whichever listener it reaches: at most one key
    is written, the list loses entries at most. *)
Lemma dispatchEvent_shape (ev : HostEvent) (w : MarkJSInput) :
  let w' := dispatchEvent heap ev w in
  (keys w' = keys w \/ exists k b, keys w' = <[k := b]> (keys w))
  /\ subscribers w' `sublist_of` subscribers w
  /\ lastGamepadButtons w' = lastGamepadButtons w
  /\ lastGamepadAxes w' = lastGamepadAxes w.
Proof.
  unfold dispatchEvent. destruct (listening w); [|by repeat split; [left|..]].
  destruct ev as [e|e|e|e|e|e|e|e|e|e|e|e]; simpl;
    unfold _handleKeyDown, _handleKeyUp, _handleMouseMove, _handleMouseDown,
      _handleMouseUp, _handleMouseEnter, _handleMouseClick, _handleContextMenu,
      _handleTouchStart, _handleTouchMove, _handleTouchEnd, _handleGamepadConnected;
    try destruct (_ !! 0%nat);
    try (by repeat split; [left|..]);
    match goal with
    | |- context [notify heap ?n ?a ?w0] =>
        pose proof (notify_inputs heap n a w0) as Hi;
        pose proof (notify_subscribers heap n a w0) as Hs;
        fields Hi; simpl in *
    end;
    (split; [|split; [done | split; congruence]]);
    try (left; congruence);
    right; eauto.
Qed.


Lemma step_NoDup (op : Op) (w : MarkJSInput) :
  NoDup (subscribers w) -> NoDup (subscribers (step heap w op)).
Proof.
  intros Hnd. destruct op as [s|s|h|gamepads| |ev]; simpl.
  - by apply subscribe_NoDup.
  - by apply unsubscribe_NoDup.
  - by apply unsubscribe_NoDup.
  - destruct (update_shape gamepads w) as [-> | (gp & H)]; [done|].
    destruct H as (_&_&_&_&_&_&_&_&Hs&_). by eapply sublist_NoDup.
  - apply NoDup_nil_2.
  - destruct (dispatchEvent_shape ev w) as (_ & Hs & _). by eapply sublist_NoDup.
Qed.

Lemma run_snoc (c : Canvas) (ops : list Op) (op : Op) :
  run heap c (ops ++ [op]) = step heap (run heap c ops) op.
Proof. unfold run. by rewrite foldl_app. Qed.

Lemma run_NoDup (c : Canvas) (ops : list Op) : NoDup (subscribers (run heap c ops)).
Proof.
  induction ops as [|op ops IH] using rev_ind.
  - apply NoDup_nil_2.
  - rewrite run_snoc. by apply step_NoDup.
Qed.


Lemma unsubscribe_length (s : SubId) (w : MarkJSInput) :
  (length (subscribers w) <= S (length (subscribers (unsubscribe s w))))%nat.
Proof.
  unfold unsubscribe. destruct (indexOf (subscribers w) s) as [i|] eqn:E; simpl; [|lia].
  apply indexOf_Some in E. unfold splice1.
  rewrite length_delete by eauto. lia.
Qed.

End Steps.



(** C9.  The subscriber list of a new instance has no duplicates, and
    every operation (a public method, or an event with whatever the
    handlers unsubscribe) keeps it so.  Hence in every state an instance
    can reach, one [unsubscribe] leaves no registration of the
    subscriber, though it removes at most one entry. *)
Theorem no_duplicate_subscribers (heap : SubId -> Subscriber) (c : Canvas) :
  NoDup (subscribers (new_MarkJSInput c))
  /\ (forall w op, NoDup (subscribers w) -> NoDup (subscribers (step heap w op)))
  /\ forall ops s,
       let w := run heap c ops in
       NoDup (subscribers w)
       /\ registrations s (unsubscribe s w) = O
       /\ (length (subscribers w) <= S (length (subscribers (unsubscribe s w))))%nat.
Proof.
  split; [apply NoDup_nil_2|]. split; [intros w op; apply step_NoDup|].
  intros ops s w. subst w. pose proof (run_NoDup heap c ops) as Hnd.
  split; [exact Hnd|]. split; [|apply unsubscribe_length].
  by apply registrations_absent, unsubscribe_removes.
Qed.

Lemma no_duplicate_subscribers_witness :
  NoDup (subscribers (step one_shot_heap two_subscribers (op_event (mousemove move_15_25)))).
Proof.
  destruct (no_duplicate_subscribers one_shot_heap canvas_800x600) as (_ & H & _).
  apply H, NoDup_two_subscribers.
Defined.



(** ** Notifications on the states an instance can reach *)

Lemma run_two_subscribers (heap : SubId -> Subscriber) :
  run heap canvas_800x600 [op_subscribe 0%nat; op_subscribe 1%nat] = two_subscribers.
Proof. reflexivity. Qed.




(** C5.  On an instance in any state it can reach: [subscribe] with a
    subscriber that is on the list leaves the instance as it is; after
    [subscribe] the subscriber is registered exactly once, also when
    [subscribe] is called again; the object that [subscribe] returns
    unsubscribes that subscriber; [unsubscribe] of a subscriber that is
    not on the list leaves the instance as it is; after [unsubscribe],
    directly or through the returned object, the subscriber is registered
    zero times, and a second [unsubscribe] changes nothing; the other
    subscribers stay as they are. *)
Theorem subscribe_unsubscribe_idempotent (heap : SubId -> Subscriber) (c : Canvas)
    (ops : list Op) (s : SubId) :
  let w := run heap c ops in
  let h := fst (subscribe s w) in
  let w1 := snd (subscribe s w) in
  (s ∈ subscribers w -> w1 = w)
  /\ registrations s w1 = 1%nat
  /\ snd (subscribe s w1) = w1
  /\ (forall w', Subscription_unsubscribe h w' = unsubscribe s w')
  /\ registrations s (Subscription_unsubscribe h w1) = O
  /\ (s ∉ subscribers w -> unsubscribe s w = w)
  /\ registrations s (unsubscribe s w) = O
  /\ unsubscribe s (unsubscribe s w) = unsubscribe s w
  /\ Subscription_unsubscribe h (Subscription_unsubscribe h w1)
     = Subscription_unsubscribe h w1
  /\ (forall t, t <> s ->
        (t ∈ subscribers w1 <-> t ∈ subscribers w)
        /\ (t ∈ subscribers (unsubscribe s w) <-> t ∈ subscribers w)).
Proof. intros w. apply subscribe_unsubscribe_NoDup, run_NoDup. Qed.

Lemma subscribe_unsubscribe_idempotent_witness :
  snd (subscribe 1%nat two_subscribers) = two_subscribers
  /\ (0%nat ∈ subscribers (unsubscribe 1%nat two_subscribers)
      <-> 0%nat ∈ subscribers two_subscribers).
Proof.
  destruct (subscribe_unsubscribe_idempotent observers canvas_800x600
              [op_subscribe 0%nat; op_subscribe 1%nat] 1%nat)
    as (H1 & _ & _ & _ & _ & _ & _ & _ & _ & H2).
  split.
  - apply H1. apply elem_of_cons. right. by left.
  - apply H2. discriminate.
Defined.

(** * Further properties *)

(** ** Coordinates inside the box *)

Section AxisInside.

Variables (client origin rendered : Q) (internal : N).
Hypothesis rendered_pos : 0 < rendered.

Let scaled := (client - origin) * (of_N internal / rendered).
Let code := Math_max 0 (Math_min (Math_round scaled) (of_N internal)).

Lemma Qfloor_half_le (q : Q) (z : Z) :
  q <= inject_Z z -> (Qfloor (q + (1 # 2)) <= z)%Z.
Proof.
  intros H. apply Z.lt_succ_r. rewrite Zlt_Qlt.
  eapply Qle_lt_trans; [apply Qfloor_le|].
  unfold Z.succ. rewrite inject_Z_plus. change (inject_Z 1) with 1. lra.
Qed.

Lemma Qfloor_half_ge (q : Q) (z : Z) :
  inject_Z z <= q -> (z <= Qfloor (q + (1 # 2)))%Z.
Proof.
  intros H. rewrite <- (Qfloor_Z z). apply Qfloor_resp_le. lra.
Qed.



End AxisInside.

Section AxisMonotone.

Variables (origin rendered : Q) (internal : N).
Hypothesis rendered_pos : 0 < rendered.

Lemma axis_monotone (client client' : Q) :
  client <= client' ->
  Math_max 0 (Math_min (Math_round ((client - origin) * (of_N internal / rendered)))
                (of_N internal))
  <= Math_max 0 (Math_min (Math_round ((client' - origin) * (of_N internal / rendered)))
                   (of_N internal)).
Proof.
  intros H. rewrite !axis_code_Z. rewrite <- Zle_Qle.
  assert (Qfloor ((client - origin) * (of_N internal / rendered) + (1 # 2))
          <= Qfloor ((client' - origin) * (of_N internal / rendered) + (1 # 2)))%Z.
  { apply Qfloor_resp_le. apply Qplus_le_l.
    apply Qmult_le_compat_r; [lra | by apply scale_nonneg]. }
  lia.
Qed.

End AxisMonotone.


(** X2.  The mapping keeps the order of points: moving right in the
    viewport never moves left on the canvas, and moving down never
    moves up. *)
Theorem getCanvasCoordinates_monotone (c : Canvas) (X X' Y Y' : Q) :
  0 < rect_width (getBoundingClientRect c) ->
  0 < rect_height (getBoundingClientRect c) ->
  (X <= X' -> fst (getCanvasCoordinates c X Y) <= fst (getCanvasCoordinates c X' Y'))
  /\ (Y <= Y' -> snd (getCanvasCoordinates c X Y) <= snd (getCanvasCoordinates c X' Y')).
Proof.
  intros Hw Hh. unfold getCanvasCoordinates. cbv zeta. simpl.
  split; intros H; by apply axis_monotone.
Qed.

Lemma axis_integer_scale (origin rendered : Q) (internal k : N) (d : Z) :
  0 < rendered ->
  of_N internal == inject_Z (Z.of_N k) * rendered ->
  (0 <= d)%Z -> inject_Z d <= rendered ->
  Math_max 0 (Math_min (Math_round ((origin + inject_Z d - origin)
                                    * (of_N internal / rendered)))
                (of_N internal))
  = inject_Z (Z.of_N k * d).
Proof.
  intros Hpos Hk Hd0 Hd1. rewrite axis_code_Z. f_equal.
  assert ((origin + inject_Z d - origin) * (of_N internal / rendered)
          == inject_Z (Z.of_N k * d)) as E.
  { rewrite Hk, inject_Z_mult. field.
    intros E. rewrite E in Hpos. by apply Qlt_irrefl in Hpos. }
  rewrite (Qfloor_comp _ _ (Qplus_comp _ _ E _ _ (Qeq_refl (1 # 2)))).
  pose proof (Qfloor_half_le (inject_Z (Z.of_N k * d)) _ (Qle_refl _)).
  pose proof (Qfloor_half_ge (inject_Z (Z.of_N k * d)) _ (Qle_refl _)).
  assert (Z.of_N k * d <= Z.of_N internal)%Z.
  { rewrite Zle_Qle. fold (of_N internal). rewrite Hk, inject_Z_mult.
    rewrite (Qmult_comm _ (inject_Z d)), (Qmult_comm _ rendered).
    apply Qmult_le_compat_r; [exact Hd1|].
    change 0 with (inject_Z 0). rewrite <- Zle_Qle. lia. }
  assert (0 <= Z.of_N k * d)%Z by lia.
  lia.
Qed.

(** X3.  Where the internal size is a whole multiple [k] of the rendered
    size (1 for a canvas shown at its own size), a point a whole number
    [d] of rendered pixels into the box maps to exactly [k * d]. *)
Theorem getCanvasCoordinates_integer_scale (c : Canvas) (kx ky : N) (dx dy : Z) :
  let r := getBoundingClientRect c in
  0 < rect_width r -> 0 < rect_height r ->
  of_N (canvas_width c) == inject_Z (Z.of_N kx) * rect_width r ->
  of_N (canvas_height c) == inject_Z (Z.of_N ky) * rect_height r ->
  (0 <= dx)%Z -> inject_Z dx <= rect_width r ->
  (0 <= dy)%Z -> inject_Z dy <= rect_height r ->
  getCanvasCoordinates c (rect_left r + inject_Z dx) (rect_top r + inject_Z dy)
  = (inject_Z (Z.of_N kx * dx), inject_Z (Z.of_N ky * dy)).
Proof.
  intros r Hw Hh Hkx Hky Hx0 Hx1 Hy0 Hy1.
  unfold getCanvasCoordinates. fold r. cbv zeta.
  f_equal; by apply axis_integer_scale.
Qed.

Lemma getCanvasCoordinates_integer_scale_witness :
  getCanvasCoordinates canvas_800x600 (10 + 5) (20 + 7) = (10, 14).
Proof.
  apply (getCanvasCoordinates_integer_scale canvas_800x600 2 2 5 7);
    reflexivity || discriminate.
Defined.

(** ** Registration order *)

Lemma indexOf_app_absent (l : list SubId) (s : SubId) :
  s ∉ l -> indexOf (l ++ [s]) s = Some (length l).
Proof.
  induction l as [|t l IH]; simpl; intros H.
  - by rewrite Nat.eqb_refl.
  - apply not_elem_of_cons in H as [Hne H].
    destruct (Nat.eqb_spec t s); [congruence|]. by rewrite IH.
Qed.

Lemma splice1_app_last (l : list SubId) (s : SubId) :
  splice1 (length l) (l ++ [s]) = l.
Proof.
  unfold splice1. induction l as [|t l IH]; simpl; [done|]. by rewrite IH.
Qed.

(** X4.  [subscribe] puts a subscriber that is not on the list at its
    end, and an [unsubscribe] straight after gives back the instance as
    it was, in every field. *)
Theorem subscribe_unsubscribe_round_trip (s : SubId) (w : MarkJSInput) :
  s ∉ subscribers w ->
  subscribers (snd (subscribe s w)) = subscribers w ++ [s]
  /\ unsubscribe s (snd (subscribe s w)) = w.
Proof.
  intros H. unfold subscribe.
  destruct (includes (subscribers w) s) eqn:E.
  - apply includes_elem_of in E. contradiction.
  - simpl. split; [done|]. unfold unsubscribe. simpl.
    rewrite indexOf_app_absent by done. rewrite splice1_app_last.
    by destruct w.
Qed.

Lemma filter_absent (l : list SubId) (s : SubId) :
  s ∉ l -> List.filter (fun t => negb (Nat.eqb t s)) l = l.
Proof.
  induction l as [|t l IH]; simpl; intros H; [done|].
  apply not_elem_of_cons in H as [Hne H].
  destruct (Nat.eqb_spec t s); [congruence|]. simpl. by rewrite IH.
Qed.

Lemma unsubscribe_filter_NoDup (s : SubId) (w : MarkJSInput) :
  NoDup (subscribers w) ->
  subscribers (unsubscribe s w)
  = List.filter (fun t => negb (Nat.eqb t s)) (subscribers w).
Proof.
  intros Hnd.
  assert (forall l, NoDup l ->
            match indexOf l s with
            | Some i => splice1 i l
            | None => l
            end = List.filter (fun t => negb (Nat.eqb t s)) l) as E.
  { clear. intros l Hnd. induction l as [|t l IH]; simpl; [done|].
    apply NoDup_cons in Hnd as [Ht Hnd].
    destruct (Nat.eqb_spec t s) as [->|Hne]; simpl.
    - by rewrite filter_absent.
    - rewrite <- IH by done. by destruct (indexOf l s). }
  rewrite <- (E _ Hnd). unfold unsubscribe.
  by destruct (indexOf (subscribers w) s).
Qed.

(** X5.  In every state an instance can reach, [unsubscribe] takes out
    exactly the entries for its subscriber and keeps the others in their
    order. *)
Theorem unsubscribe_filter (heap : SubId -> Subscriber) (c : Canvas) (ops : list Op)
    (s : SubId) :
  let w := run heap c ops in
  subscribers (unsubscribe s w)
  = List.filter (fun t => negb (Nat.eqb t s)) (subscribers w).
Proof. intros w. apply unsubscribe_filter_NoDup, run_NoDup. Qed.

(** ** Notifications under any handlers *)

Lemma sublist_drop_mono {A : Type} (k : nat) (l1 l2 : list A) :
  l1 `sublist_of` l2 -> drop k l1 `sublist_of` drop k l2.
Proof.
  intros H. revert k. induction H as [|x l1 l2 H IH|x l1 l2 H IH]; intros k.
  - by rewrite drop_nil.
  - destruct k as [|k]; simpl; [by constructor | apply IH].
  - destruct k as [|k]; simpl; [by constructor|].
    etrans; [|apply IH].
    replace (S k) with (k + 1)%nat by lia. rewrite <- drop_drop. apply sublist_drop.
Qed.

Lemma sublist_filter_bool {A : Type} (p : A -> bool) (l1 l2 : list A) :
  l1 `sublist_of` l2 -> List.filter p l1 `sublist_of` List.filter p l2.
Proof.
  induction 1 as [|x l1 l2 H IH|x l1 l2 H IH]; simpl.
  - constructor.
  - destruct (p x); [by constructor | done].
  - destruct (p x); [by constructor | done].
Qed.

Lemma count_if_le_1 (l : list SubId) (s : SubId) :
  NoDup l -> (count_if (fun t => Nat.eqb t s) l <= 1)%nat.
Proof.
  intros Hnd. destruct (decide (s ∈ l)) as [Hin|Hout].
  - by rewrite count_if_NoDup.
  - rewrite count_if_absent by done. lia.
Qed.

Lemma unsubscribe_called (s : SubId) (w : MarkJSInput) :
  called (unsubscribe s w) = called w.
Proof. unfold unsubscribe. by destruct (indexOf (subscribers w) s). Qed.

Lemma run_handler_called (targets : list SubId) (w : MarkJSInput) :
  called (run_handler targets w) = called w.
Proof.
  revert w. induction targets as [|t targets IH]; intros w; simpl; [done|].
  by rewrite IH, unsubscribe_called.
Qed.

Section AnyHandlers.

Variable heap : SubId -> Subscriber.

Lemma invoke_called (n : HandlerName) (a : Args) (s : SubId) (w : MarkJSInput) :
  called (invoke heap n a s w)
  = called w ++ (if has_handler heap n s then [(s, n, a)] else []).
Proof.
  unfold invoke, has_handler. destruct (heap s n).
  - by rewrite run_handler_called.
  - by rewrite app_nil_r.
Qed.

Lemma invoke_no_handler (n : HandlerName) (a : Args) (s : SubId) (w : MarkJSInput) :
  has_handler heap n s = false -> invoke heap n a s w = w.
Proof. unfold invoke, has_handler. by destruct (heap s n). Qed.

(** The subscribers that a loop calls, from [index] on: a part of what
    is on the list from there on, in the same order, and beginning with
    the same subscriber. *)
Lemma for_of_callees (steps index : nat) (n : HandlerName) (a : Args) (w : MarkJSInput) :
  (length (subscribers w) <= index + steps)%nat ->
  exists cs,
    called (for_of heap steps index n a w) = called w ++ map (fun s => (s, n, a)) cs
    /\ cs `sublist_of` List.filter (has_handler heap n) (drop index (subscribers w))
    /\ head cs = head (List.filter (has_handler heap n) (drop index (subscribers w))).
Proof.
  revert index w. induction steps as [|steps IH]; intros index w Hlen.
  - exists []. simpl. rewrite app_nil_r, drop_ge by lia. done.
  - simpl. destruct (subscribers w !! index) as [s|] eqn:E.
    + pose proof (invoke_shrinks heap n a s w) as Hsh.
      destruct (IH (S index) (invoke heap n a s w)) as (cs & Hc & Hs & Hh).
      { pose proof (shrinks_length _ _ Hsh). lia. }
      assert (cs `sublist_of` List.filter (has_handler heap n)
                                (drop (S index) (subscribers w))) as Hs'.
      { etrans; [exact Hs|]. apply sublist_filter_bool, sublist_drop_mono.
        by destruct Hsh as (_ & _ & ? & _). }
      rewrite (drop_S _ _ _ E). simpl.
      destruct (has_handler heap n s) eqn:Eh.
      * exists (s :: cs). rewrite Hc, invoke_called, Eh. simpl.
        rewrite <- app_assoc. split; [done|]. split; [by constructor | done].
      * exists cs. rewrite invoke_no_handler in Hc, Hh |- * by done.
        split; [done|]. split; [done|]. by rewrite Hh.
    + exists []. rewrite app_nil_r. apply lookup_ge_None in E.
      rewrite drop_ge by lia. done.
Qed.

Lemma notify_callees (n : HandlerName) (a : Args) (w : MarkJSInput) :
  exists cs,
    called (notify heap n a w) = called w ++ map (fun s => (s, n, a)) cs
    /\ cs `sublist_of` List.filter (has_handler heap n) (subscribers w)
    /\ head cs = head (List.filter (has_handler heap n) (subscribers w)).
Proof.
  destruct (for_of_callees (length (subscribers w)) 0 n a (log_notified n a w))
    as (cs & H1 & H2 & H3); [simpl; lia|].
  exists cs. rewrite drop_0 in H2, H3. split; [exact H1|]. split; [exact H2 | exact H3].
Qed.

End AnyHandlers.

(** X6.  Whatever the handlers unsubscribe, one notification calls only
    subscribers that were on the list when it began and have the
    handler, in the order of the list and with the same arguments, none
    of them twice; the first of them is never passed over; and the list
    at most loses entries. *)
Theorem notify_any_handlers (heap : SubId -> Subscriber) (c : Canvas) (ops : list Op)
    (n : HandlerName) (a : Args) :
  let w := run heap c ops in
  let w' := notify heap n a w in
  exists cs,
    called_since w w' = map (fun s => (s, n, a)) cs
    /\ cs `sublist_of` List.filter (has_handler heap n) (subscribers w)
    /\ head cs = head (List.filter (has_handler heap n) (subscribers w))
    /\ (forall s, (calls_to s (called_since w w') <= 1)%nat)
    /\ subscribers w' `sublist_of` subscribers w.
Proof.
  intros w w'. destruct (notify_callees heap n a w) as (cs & Hc & Hs & Hh).
  assert (called_since w w' = map (fun s => (s, n, a)) cs) as E.
  { unfold called_since. subst w'. by rewrite Hc, drop_app_length. }
  exists cs. split; [exact E|]. split; [exact Hs|]. split; [exact Hh|].
  split; [|apply notify_subscribers].
  intros s. rewrite E. unfold calls_to. rewrite count_if_map. simpl.
  apply count_if_le_1. eapply sublist_NoDup; [|exact Hs].
  apply NoDup_ListNoDup, List.NoDup_filter, NoDup_ListNoDup, run_NoDup.
Qed.

(** ** The logs over the life of an instance *)

Lemma getCanvasCoordinates_range (c : Canvas) (X Y : Q) :
  exists i j : Z,
    fst (getCanvasCoordinates c X Y) = inject_Z i
    /\ snd (getCanvasCoordinates c X Y) = inject_Z j
    /\ (0 <= i <= Z.of_N (canvas_width c))%Z
    /\ (0 <= j <= Z.of_N (canvas_height c))%Z.
Proof.
  unfold getCanvasCoordinates. cbv zeta. simpl.
  set (r := getBoundingClientRect c).
  destruct (axis_range X (rect_left r) (rect_width r) (canvas_width c)) as (i & Hi & Hir).
  destruct (axis_range Y (rect_top r) (rect_height r) (canvas_height c)) as (j & Hj & Hjr).
  exists i, j. by rewrite Hi, Hj.
Qed.

Section Logs.

Variable heap : SubId -> Subscriber.
Variable c : Canvas.

Lemma notify_logs_ok (n : HandlerName) (a : Args) (w : MarkJSInput) :
  logs_ok heap c w -> in_canvas c a -> logs_ok heap c (notify heap n a w).
Proof.
  intros (Hc & Hn & Hcalled) Ha.
  pose proof (notify_inputs heap n a w) as Hi. fields Hi.
  destruct (notify_callees heap n a w) as (cs & Hcs & Hsub & _).
  split; [congruence|]. rewrite notify_notified, Hcs. split.
  - intros n' a' [Hin|Hin]%elem_of_app; [by eapply Hn|].
    apply list_elem_of_singleton in Hin as [= -> ->]. exact Ha.
  - intros s n' a' [Hin|Hin]%elem_of_app.
    + destruct (Hcalled s n' a' Hin) as [Hnt Hhd]. split; [|exact Hhd].
      apply elem_of_app. by left.
    + apply list_elem_of_fmap in Hin as (s' & [= -> -> ->] & Hs').
      split; [apply elem_of_app; right; by left|].
      eapply elem_of_sublist in Hs'; [|exact Hsub].
      by apply elem_of_filter_bool in Hs' as [_ ?].
Qed.

End Logs.

Section LogsSteps.

Variable heap : SubId -> Subscriber.
Variable c : Canvas.

Lemma button_loop_logs_ok (bs : list GamepadButton) (i : nat) (w : MarkJSInput) :
  logs_ok heap c w -> logs_ok heap c (button_loop heap bs i w).
Proof.
  revert i w. induction bs as [|b bs IH]; intros i w H; simpl; [done|].
  apply IH. destruct (pressed b && negb _); [|done].
  by apply notify_logs_ok.
Qed.

Lemma poll_gamepad_logs_ok (gp : Gamepad) (w : MarkJSInput) :
  logs_ok heap c w -> logs_ok heap c (poll_gamepad heap gp w).
Proof.
  intros H. unfold poll_gamepad. cbv zeta.
  match goal with |- context [button_loop heap _ _ ?w1] =>
    assert (logs_ok heap c w1) as H1 end.
  { destruct (_ || _); [|exact H]. by apply (notify_logs_ok heap c _ _ (set_gamepad _ w)). }
  exact (button_loop_logs_ok _ _ _ H1).
Qed.

Lemma update_logs_ok (gamepads : GamepadList) (w : MarkJSInput) :
  logs_ok heap c w -> logs_ok heap c (update heap gamepads w).
Proof.
  intros H. destruct gamepads as [slots|]; [|done].
  unfold update, updateGamepad. rewrite poll_slots_first_device.
  destruct (first_device slots); [by apply poll_gamepad_logs_ok | done].
Qed.

Lemma xy_in_canvas (w : MarkJSInput) (X Y : Q) :
  canvas w = c ->
  in_canvas c (args_xy (fst (getCanvasCoordinates (canvas w) X Y))
                       (snd (getCanvasCoordinates (canvas w) X Y))).
Proof.
  intros Hc. rewrite <- Hc.
  destruct (getCanvasCoordinates_range (canvas w) X Y) as (i & j & H).
  exists i, j. tauto.
Qed.

Lemma xyb_in_canvas (w : MarkJSInput) (X Y : Q) (b : Z) :
  canvas w = c ->
  in_canvas c (args_xyb (fst (getCanvasCoordinates (canvas w) X Y))
                        (snd (getCanvasCoordinates (canvas w) X Y)) b).
Proof. apply xy_in_canvas. Qed.

Lemma dispatchEvent_logs_ok (ev : HostEvent) (w : MarkJSInput) :
  logs_ok heap c w -> logs_ok heap c (dispatchEvent heap ev w).
Proof.
  intros H. pose proof H as (Hc & _).
  unfold dispatchEvent. destruct (listening w); [|done].
  destruct ev as [e|e|e|e|e|e|e|e|e|e|e|e]; simpl;
    unfold _handleKeyDown, _handleKeyUp, _handleMouseMove, _handleMouseDown,
      _handleMouseUp, _handleMouseEnter, _handleMouseClick, _handleContextMenu,
      _handleTouchStart, _handleTouchMove, _handleTouchEnd, _handleGamepadConnected;
    try destruct (_ !! 0%nat); try done;
    first [ apply notify_logs_ok; [exact H|];
            first [ by apply xy_in_canvas | by apply xyb_in_canvas | done ]
          | by apply (notify_logs_ok heap c _ _ (set_keys _ w)) ].
Qed.

Lemma step_logs_ok (op : Op) (w : MarkJSInput) :
  logs_ok heap c w -> logs_ok heap c (step heap w op).
Proof.
  intros H. destruct op as [s|s|h|gamepads| |ev]; simpl.
  - unfold subscribe. by destruct (negb _).
  - unfold unsubscribe. by destruct (indexOf _ _).
  - unfold Subscription_unsubscribe, unsubscribe. by destruct (indexOf _ _).
  - by apply update_logs_ok.
  - exact H.
  - by apply dispatchEvent_logs_ok.
Qed.

Lemma run_logs_ok (ops : list Op) : logs_ok heap c (run heap c ops).
Proof.
  induction ops as [|op ops IH] using rev_ind.
  - split; [done|]. split; [intros n a H | intros s n a H]; by apply elem_of_nil in H.
  - rewrite run_snoc. by apply step_logs_ok.
Qed.

End LogsSteps.

(** X7.  Over the whole life of an instance, a handler is only called
    with a name and arguments that the instance has notified, and only on
    a subscriber that has a handler of that name. *)
Theorem calls_were_notified (heap : SubId -> Subscriber) (c : Canvas) (ops : list Op)
    (s : SubId) (n : HandlerName) (a : Args) :
  let w := run heap c ops in
  (s, n, a) ∈ called w -> (n, a) ∈ notified w /\ has_handler heap n s = true.
Proof. intros w. destruct (run_logs_ok heap c ops) as (_ & _ & H). apply H. Qed.

(** X8.  Over the whole life of an instance whose canvas has a rendered
    box of positive size, every pair of coordinates that is notified or
    handed to a handler is a pair of integers within the canvas. *)
Theorem coordinates_in_canvas (heap : SubId -> Subscriber) (c : Canvas) (ops : list Op)
    (s : SubId) (n : HandlerName) (a : Args) :
  0 < rect_width (getBoundingClientRect c) ->
  0 < rect_height (getBoundingClientRect c) ->
  let w := run heap c ops in
  (n, a) ∈ notified w \/ (s, n, a) ∈ called w -> in_canvas c a.
Proof.
  intros _ _ w. destruct (run_logs_ok heap c ops) as (_ & Hn & Hc).
  intros [H|H]; [by eapply Hn|]. destruct (Hc s n a H) as [H' _]. by eapply Hn.
Qed.

(** ** Events from the host *)

Section AfterDestroy.

Variable heap : SubId -> Subscriber.

Lemma step_not_listening (op : Op) (w : MarkJSInput) :
  listening w = false -> listening (step heap w op) = false.
Proof.
  intros H. destruct op as [s|s|h|gamepads| |ev]; simpl.
  - unfold subscribe. by destruct (negb _).
  - pose proof (unsubscribe_shrinks s w) as (Hi & _). fields Hi. congruence.
  - pose proof (unsubscribe_shrinks (subscription_of h) w) as (Hi & _).
    unfold Subscription_unsubscribe. fields Hi. congruence.
  - destruct (update_shape heap gamepads w) as [-> | (gp & _ & _ & _ & -> & _)]; done.
  - done.
  - unfold dispatchEvent. by rewrite H.
Qed.

Lemma steps_not_listening (ops : list Op) (w : MarkJSInput) :
  listening w = false -> listening (foldl (step heap) w ops) = false.
Proof.
  revert w. induction ops as [|op ops IH]; intros w H; simpl; [done|].
  by apply IH, step_not_listening.
Qed.

End AfterDestroy.

(** X9.  After [destroy], whatever is done with the instance later, no
    event from the host reaches it any more: the listeners are gone for
    good, and an event leaves the instance as it is. *)
Theorem events_after_destroy (heap : SubId -> Subscriber) (w : MarkJSInput)
    (ops : list Op) (ev : HostEvent) :
  let w' := foldl (step heap) (destroy w) ops in
  listening w' = false /\ dispatchEvent heap ev w' = w'.
Proof.
  intros w'. assert (listening w' = false) as H by by apply steps_not_listening.
  split; [exact H|]. unfold dispatchEvent. by rewrite H.
Qed.


Lemma notified_since_refl (w : MarkJSInput) : notified_since w w = [].
Proof. unfold notified_since. apply drop_all. Qed.

Lemma set_keys_same (w : MarkJSInput) : set_keys (keys w) w = w.
Proof. by destruct w. Qed.

(** An event does nothing, or writes the key table and notifies once. *)
Lemma dispatchEvent_cases (heap : SubId -> Subscriber) (ev : HostEvent)
    (w : MarkJSInput) :
  dispatchEvent heap ev w = w
  \/ exists n a ks, dispatchEvent heap ev w = notify heap n a (set_keys ks w).
Proof.
  unfold dispatchEvent. destruct (listening w); [|by left].
  destruct ev as [e|e|e|e|e|e|e|e|e|e|e|e]; simpl;
    unfold _handleKeyDown, _handleKeyUp, _handleMouseMove, _handleMouseDown,
      _handleMouseUp, _handleMouseEnter, _handleMouseClick, _handleContextMenu,
      _handleTouchStart, _handleTouchMove, _handleTouchEnd, _handleGamepadConnected;
    try destruct (_ !! 0%nat);
    first [ by left
          | right; by do 3 eexists
          | right; do 2 eexists; exists (keys w); by rewrite set_keys_same ].
Qed.


(** ** What keeps the gamepad state and the key table *)

Section Kept.

Variable heap : SubId -> Subscriber.

Lemma dispatchEvent_inputs (ev : HostEvent) (w : MarkJSInput) :
  exists ks, inputs (dispatchEvent heap ev w) = inputs (set_keys ks w).
Proof.
  destruct (dispatchEvent_cases heap ev w) as [-> | (n & a & ks & ->)].
  - exists (keys w). by rewrite set_keys_same.
  - exists ks. apply notify_inputs.
Qed.

End Kept.

(** X11.  Only [destroy] and an [update] that finds a device change
    [gamepad] and the two snapshots.  In particular a device that is
    gone is not forgotten: an [update] that finds no device keeps the
    last device and its snapshots. *)
Theorem gamepad_state_kept (heap : SubId -> Subscriber) (op : Op) (w : MarkJSInput) :
  op <> op_destroy -> finds_no_device op ->
  gamepad (step heap w op) = gamepad w
  /\ lastGamepadButtons (step heap w op) = lastGamepadButtons w
  /\ lastGamepadAxes (step heap w op) = lastGamepadAxes w.
Proof.
  intros Hd Hop. destruct op as [s|s|h|gamepads| |ev]; simpl.
  - unfold subscribe. by destruct (negb _).
  - pose proof (unsubscribe_shrinks s w) as (Hi & _). by fields Hi.
  - pose proof (unsubscribe_shrinks (subscription_of h) w) as (Hi & _).
    unfold Subscription_unsubscribe. by fields Hi.
  - destruct gamepads as [slots|]; [|done]. simpl in Hop.
    unfold update, updateGamepad. by rewrite poll_slots_first_device, Hop.
  - done.
  - destruct (dispatchEvent_inputs heap ev w) as (ks & Hi). by fields Hi.
Qed.

Section Keys.

Variable heap : SubId -> Subscriber.

Lemma dispatchEvent_keys (ev : HostEvent) (w : MarkJSInput) :
  keys (dispatchEvent heap ev w) = keys w
  \/ (exists e, ev = keydown e
                /\ keys (dispatchEvent heap ev w) = <[key e := true]> (keys w))
  \/ (exists e, ev = keyup e
                /\ keys (dispatchEvent heap ev w) = <[key e := false]> (keys w)).
Proof.
  unfold dispatchEvent. destruct (listening w); [|by left].
  assert (forall n a w0, keys (notify heap n a w0) = keys w0) as Hk.
  { intros n a w0. pose proof (notify_inputs heap n a w0) as Hi. by fields Hi. }
  destruct ev as [e|e|e|e|e|e|e|e|e|e|e|e]; simpl;
    unfold _handleKeyDown, _handleKeyUp, _handleMouseMove, _handleMouseDown,
      _handleMouseUp, _handleMouseEnter, _handleMouseClick, _handleContextMenu,
      _handleTouchStart, _handleTouchMove, _handleTouchEnd, _handleGamepadConnected;
    try destruct (_ !! 0%nat); rewrite ?Hk; simpl;
    first [ by left | right; left; by eexists | right; right; by eexists ].
Qed.

Lemma step_keys_cases (op : Op) (w : MarkJSInput) :
  keys (step heap w op) = keys w
  \/ keys (step heap w op) = ∅
  \/ (exists e, op = op_event (keydown e)
                /\ keys (step heap w op) = <[key e := true]> (keys w))
  \/ (exists e, op = op_event (keyup e)
                /\ keys (step heap w op) = <[key e := false]> (keys w)).
Proof.
  destruct op as [s|s|h|gamepads| |ev]; simpl.
  - left. unfold subscribe. by destruct (negb _).
  - left. pose proof (unsubscribe_shrinks s w) as (Hi & _). by fields Hi.
  - left. pose proof (unsubscribe_shrinks (subscription_of h) w) as (Hi & _).
    unfold Subscription_unsubscribe. by fields Hi.
  - left. destruct (update_shape heap gamepads w) as [-> | (gp & _ & -> & _)]; done.
  - right. by left.
  - destruct (dispatchEvent_keys ev w) as [H | [(e & -> & H) | (e & -> & H)]].
    + by left.
    + right. right. left. by exists e.
    + right. right. right. by exists e.
Qed.

End Keys.

(** X12.  A key is in the table of an instance as down only if a
    key-down event for it was delivered to the instance, and as up only
    if a key-up event for it was. *)
Theorem key_provenance (heap : SubId -> Subscriber) (c : Canvas) (ops : list Op)
    (k : string) (b : bool) :
  keys (run heap c ops) !! k = Some b ->
  exists e, key e = k
            /\ op_event (if b then keydown e else keyup e) ∈ ops.
Proof.
  revert b. induction ops as [|op ops IH] using rev_ind; intros b.
  - unfold run. simpl. by rewrite lookup_empty.
  - rewrite run_snoc.
    destruct (step_keys_cases heap op (run heap c ops))
      as [-> | [-> | [(e & -> & ->) | (e & -> & ->)]]].
    + intros (e & He & Hin)%IH. exists e. split; [done|]. apply elem_of_app. by left.
    + by rewrite lookup_empty.
    + rewrite lookup_insert. case_decide as Hk.
      * intros [= <-]. exists e. split; [done|]. apply elem_of_app. right. by left.
      * intros (e' & He & Hin)%IH. exists e'. split; [done|]. apply elem_of_app. by left.
    + rewrite lookup_insert. case_decide as Hk.
      * intros [= <-]. exists e. split; [done|]. apply elem_of_app. right. by left.
      * intros (e' & He & Hin)%IH. exists e'. split; [done|]. apply elem_of_app. by left.
Qed.

(** ** Polls, one and several *)




(** X14.  An [update] depends on the first slot that holds a device and
    on nothing else in the array: empty slots before it and devices
    after it make no difference. *)
Theorem update_first_device_only (heap : SubId -> Subscriber)
    (slots1 slots2 : list (option Gamepad)) (w : MarkJSInput) :
  first_device slots1 = first_device slots2 ->
  update heap (Some slots1) w = update heap (Some slots2) w.
Proof.
  intros H. unfold update, updateGamepad. by rewrite !poll_slots_first_device, H.
Qed.

Lemma polls_snoc (heap : SubId -> Subscriber) (gps : list Gamepad) (gp : Gamepad)
    (w : MarkJSInput) :
  polls heap (gps ++ [gp]) w = update heap (Some [Some gp]) (polls heap gps w).
Proof. unfold polls. by rewrite foldl_app. Qed.

Lemma notified_since_trans (w1 w2 w3 : MarkJSInput) :
  notified w1 `prefix_of` notified w2 -> notified w2 `prefix_of` notified w3 ->
  notified_since w1 w3 = notified_since w1 w2 ++ notified_since w2 w3.
Proof.
  intros [l1 E1] [l2 E2]. unfold notified_since.
  rewrite E2, E1, <- app_assoc, !drop_app_length.
  by rewrite app_assoc, drop_app_length.
Qed.

Lemma polls_cons (heap : SubId -> Subscriber) (gp : Gamepad) (gps : list Gamepad)
    (w : MarkJSInput) :
  polls heap (gp :: gps) w = polls heap gps (update heap (Some [Some gp]) w).
Proof. reflexivity. Qed.

Lemma polls_prefix (heap : SubId -> Subscriber) (gps : list Gamepad) (w : MarkJSInput) :
  notified w `prefix_of` notified (polls heap gps w).
Proof.
  revert w. induction gps as [|gp gps IH]; intros w; [done|].
  rewrite polls_cons. etrans; [|apply IH].
  destruct (update_notified heap [Some gp] gp w eq_refl) as [-> _].
  by apply prefix_app_r.
Qed.

(** X15.  The axes are compared with the poll before, not with the
    values last notified: over a sequence of polls in which no tracked
    axis moves by more than 0.1 from one poll to the next, no
    [onGamepadAxis] is notified, however far the axes get in the end. *)
Theorem slow_drift_is_silent (heap : SubId -> Subscriber) (gps : list Gamepad)
    (w : MarkJSInput) :
  slow_drift (lastGamepadAxes w) gps ->
  axis_facts (notified_since w (polls heap gps w)) = [].
Proof.
  revert w. induction gps as [|gp gps IH]; intros w.
  - intros _. unfold polls. simpl. by rewrite notified_since_refl.
  - intros [Hgp Hrest]. rewrite polls_cons.
    destruct (update_notified heap [Some gp] gp w eq_refl) as [Hn Hs].
    destruct (update_polled heap [Some gp] gp w eq_refl) as (_&_&_&_&_&Ha&_).
    rewrite (notified_since_trans w (update heap (Some [Some gp]) w));
      [|rewrite Hn; by apply prefix_app_r | apply polls_prefix].
    rewrite axis_facts_app, Hs, poll_facts_axis_facts.
    rewrite (proj2 (axis_still_iff gp (lastGamepadAxes w)) Hgp), app_nil_l.
    apply IH. by rewrite Ha.
Qed.

Section Silent.

Variable heap : SubId -> Subscriber.

Lemma button_loop_held (bs : list GamepadButton) (i : nat) (w : MarkJSInput) :
  (forall j b, bs !! j = Some b -> pressed b = true ->
               or_false (lastGamepadButtons w !! (i + j)%nat) = true) ->
  button_loop heap bs i w = w.
Proof.
  revert i. induction bs as [|b bs IH]; intros i H; simpl; [done|].
  assert (pressed b && negb (or_false (lastGamepadButtons w !! i)) = false) as ->.
  { destruct (pressed b) eqn:E; [|done]. simpl.
    specialize (H 0%nat b eq_refl E). rewrite Nat.add_0_r in H. by rewrite H. }
  apply IH. intros j b' Hj Hp. specialize (H (S j) b' Hj Hp).
  by replace (S i + j)%nat with (i + S j)%nat by lia.
Qed.

Lemma axis_moved_same (gp : Gamepad) : axis_moved gp (axes gp) = false.
Proof.
  apply axis_still_iff. intros k _. unfold axis_delta, Math_abs.
  assert (tracked (axes gp) k - tracked (axes gp) k == 0) as -> by ring.
  discriminate.
Qed.

Lemma poll_gamepad_again (gp : Gamepad) (w : MarkJSInput) :
  gamepad w = Some gp -> lastGamepadAxes w = axes gp ->
  lastGamepadButtons w = map pressed (buttons gp) ->
  poll_gamepad heap gp w = w.
Proof.
  intros Hg Ha Hb. unfold poll_gamepad. cbv zeta.
  change (or_zero (axes gp !! ?k)) with (tracked (axes gp) k).
  change (or_zero (lastGamepadAxes (set_gamepad (Some gp) w) !! ?k))
    with (tracked (lastGamepadAxes w) k).
  fold (axis_delta gp (lastGamepadAxes w) 0) (axis_delta gp (lastGamepadAxes w) 1)
       (axis_delta gp (lastGamepadAxes w) 2) (axis_delta gp (lastGamepadAxes w) 3).
  fold (axis_moved gp (lastGamepadAxes w)).
  rewrite Ha, axis_moved_same.
  rewrite button_loop_held.
  - destruct w. simpl in *. by subst.
  - intros j b Hj Hp. simpl. rewrite Hb, list_lookup_fmap, Hj. simpl. exact Hp.
Qed.

End Silent.

(** X16.  Polling the same state of the devices a second time changes
    nothing: no field, no notification, no handler call. *)
Theorem update_idempotent (heap : SubId -> Subscriber) (gamepads : GamepadList)
    (w : MarkJSInput) :
  update heap gamepads (update heap gamepads w) = update heap gamepads w.
Proof.
  destruct gamepads as [slots|]; [|done].
  destruct (first_device slots) as [gp|] eqn:E.
  - destruct (update_polled heap slots gp w E) as (_&_&_&_&Hg&Ha&Hb&_).
    unfold update at 1. unfold updateGamepad. rewrite poll_slots_first_device, E.
    by apply poll_gamepad_again.
  - unfold update, updateGamepad. by rewrite !poll_slots_first_device, E.
Qed.



(** ** Subscribers off the list *)

Lemma within_refl (w : MarkJSInput) : within w w.
Proof.
  split; [done|]. exists []. split; [by rewrite app_nil_r|].
  intros s n a H. by apply elem_of_nil in H.
Qed.

Lemma within_trans (w1 w2 w3 : MarkJSInput) :
  within w1 w2 -> within w2 w3 -> within w1 w3.
Proof.
  intros (Hs1 & new1 & Hc1 & Hn1) (Hs2 & new2 & Hc2 & Hn2).
  split; [by etrans|]. exists (new1 ++ new2).
  split; [by rewrite Hc2, Hc1, app_assoc|].
  intros s n a [H|H]%elem_of_app; [by eapply Hn1|].
  eapply elem_of_sublist; [by eapply Hn2 | done].
Qed.

Section Within.

Variable heap : SubId -> Subscriber.

Lemma notify_within (n : HandlerName) (a : Args) (w : MarkJSInput) :
  within w (notify heap n a w).
Proof.
  split; [apply notify_subscribers|].
  destruct (notify_callees heap n a w) as (cs & Hc & Hs & _).
  exists (map (fun s => (s, n, a)) cs). split; [exact Hc|].
  intros s n' a' (s' & [= -> -> ->] & Hin)%list_elem_of_fmap.
  eapply elem_of_sublist in Hin; [|exact Hs].
  by apply elem_of_filter_bool in Hin as [? _].
Qed.

Lemma button_loop_within (bs : list GamepadButton) (i : nat) (w : MarkJSInput) :
  within w (button_loop heap bs i w).
Proof.
  revert i w. induction bs as [|b bs IH]; intros i w; simpl; [apply within_refl|].
  eapply within_trans; [|apply IH].
  destruct (pressed b && negb _); [apply notify_within | apply within_refl].
Qed.

Lemma poll_gamepad_within (gp : Gamepad) (w : MarkJSInput) :
  within w (poll_gamepad heap gp w).
Proof.
  unfold poll_gamepad. cbv zeta.
  match goal with |- context [button_loop heap ?bs ?i ?w1] =>
    pose proof (button_loop_within bs i w1) as H1;
    assert (within w w1) as H0
  end.
  { destruct (_ || _); [|exact (within_refl w)].
    exact (notify_within _ _ (set_gamepad (Some gp) w)). }
  exact (within_trans _ _ _ H0 H1).
Qed.

Lemma update_within (gamepads : GamepadList) (w : MarkJSInput) :
  within w (update heap gamepads w).
Proof.
  destruct gamepads as [slots|]; [|apply within_refl].
  unfold update, updateGamepad. rewrite poll_slots_first_device.
  destruct (first_device slots); [apply poll_gamepad_within | apply within_refl].
Qed.

Lemma dispatchEvent_within (ev : HostEvent) (w : MarkJSInput) :
  within w (dispatchEvent heap ev w).
Proof.
  destruct (dispatchEvent_cases heap ev w) as [-> | (n & a & ks & ->)].
  - apply within_refl.
  - exact (notify_within n a (set_keys ks w)).
Qed.

Lemma unsubscribe_within (s : SubId) (w : MarkJSInput) : within w (unsubscribe s w).
Proof.
  split; [by destruct (unsubscribe_shrinks s w) as (_ & _ & ? & _)|].
  exists []. rewrite unsubscribe_called, app_nil_r. split; [done|].
  intros s' n a H. by apply elem_of_nil in H.
Qed.

(** A step never calls a subscriber that is off the list, and only
    [subscribe] puts it on the list. *)
Lemma step_off_list (s : SubId) (op : Op) (w : MarkJSInput) :
  s ∉ subscribers w -> op <> op_subscribe s ->
  (s ∉ subscribers (step heap w op))
  /\ (exists new, called (step heap w op) = called w ++ new
                  /\ forall s' n a, (s', n, a) ∈ new -> s' <> s).
Proof.
  intros Hs Hop.
  assert (forall w', within w w' ->
            (s ∉ subscribers w')
            /\ (exists new, called w' = called w ++ new
                            /\ forall s' n a, (s', n, a) ∈ new -> s' <> s)) as Hw.
  { intros w' (Hsub & new & Hc & Hn). split.
    - intros Hin. apply Hs. by eapply elem_of_sublist.
    - exists new. split; [done|]. intros s' n a Hin ->. by apply Hs, (Hn _ n a). }
  destruct op as [s'|s'|h|gamepads| |ev]; simpl.
  - split.
    + intros Hin. apply Hs. apply (subscribe_other s' s w); [congruence | done].
    + exists []. rewrite app_nil_r. split.
      * unfold subscribe. by destruct (negb _).
      * intros ? ? ? H. by apply elem_of_nil in H.
  - apply Hw, unsubscribe_within.
  - apply Hw, unsubscribe_within.
  - apply Hw, update_within.
  - split; [apply not_elem_of_nil|]. exists []. rewrite app_nil_r. split; [done|].
    intros ? ? ? H. by apply elem_of_nil in H.
  - apply Hw, dispatchEvent_within.
Qed.

Lemma steps_off_list (s : SubId) (ops : list Op) (w : MarkJSInput) :
  s ∉ subscribers w -> Forall (fun op => op <> op_subscribe s) ops ->
  (s ∉ subscribers (foldl (step heap) w ops))
  /\ (exists new, called (foldl (step heap) w ops) = called w ++ new
                  /\ forall s' n a, (s', n, a) ∈ new -> s' <> s).
Proof.
  revert w. induction ops as [|op ops IH]; intros w Hs Hops; simpl.
  - split; [done|]. exists []. rewrite app_nil_r. split; [done|].
    intros ? ? ? H. by apply elem_of_nil in H.
  - apply Forall_cons in Hops as [Hop Hops].
    destruct (step_off_list s op w Hs Hop) as (Hs1 & new1 & Hc1 & Hn1).
    destruct (IH (step heap w op) Hs1 Hops) as (Hs2 & new2 & Hc2 & Hn2).
    split; [done|]. exists (new1 ++ new2). split; [by rewrite Hc2, Hc1, app_assoc|].
    intros s' n a [H|H]%elem_of_app; [by eapply Hn1 | by eapply Hn2].
Qed.

End Within.

Lemma calls_to_none (s : SubId) (log : list (SubId * HandlerName * Args)) :
  (forall s' n a, (s', n, a) ∈ log -> s' <> s) -> calls_to s log = O.
Proof.
  unfold calls_to. induction log as [|[[s' n] a] log IH]; intros H; simpl; [done|].
  destruct (Nat.eqb_spec s' s) as [->|Hne].
  - exfalso. apply (H s n a); [by left | done].
  - apply IH. intros s'' n' a' Hin. apply (H s'' n' a'). by right.
Qed.

(** X18.  A subscriber that is off the list has no handler called, and
    stays off the list, whatever happens to the instance, until
    [subscribe] is called for it. *)
Theorem unsubscribed_not_called (heap : SubId -> Subscriber) (s : SubId)
    (ops : list Op) (w : MarkJSInput) :
  s ∉ subscribers w ->
  Forall (fun op => op <> op_subscribe s) ops ->
  let w' := foldl (step heap) w ops in
  (s ∉ subscribers w') /\ calls_to s (called_since w w') = O.
Proof.
  intros Hs Hops w'. destruct (steps_off_list heap s ops w Hs Hops) as (Hs' & new & Hc & Hn).
  split; [exact Hs'|]. unfold called_since. subst w'. rewrite Hc, drop_app_length.
  by apply calls_to_none.
Qed.

(** ** Handlers that unsubscribe their own subscriber *)

Section OneShot.

Variable heap : SubId -> Subscriber.

Lemma run_handler_removes (s : SubId) (targets : list SubId) (w : MarkJSInput) :
  NoDup (subscribers w) -> s ∈ targets -> s ∉ subscribers (run_handler targets w).
Proof.
  revert w. induction targets as [|t targets IH]; intros w Hnd Hin; simpl.
  - by apply elem_of_nil in Hin.
  - apply elem_of_cons in Hin as [->|Hin].
    + intros H. apply (unsubscribe_removes t w Hnd).
      destruct (run_handler_shrinks targets (unsubscribe t w)) as (_ & _ & Hs & _).
      by eapply elem_of_sublist.
    + apply IH; [by apply unsubscribe_NoDup | done].
Qed.

Lemma invoke_removes (n : HandlerName) (a : Args) (s : SubId) (h : Handler)
    (w : MarkJSInput) :
  NoDup (subscribers w) -> heap s n = Some h -> s ∈ h a ->
  s ∉ subscribers (invoke heap n a s w).
Proof.
  intros Hnd Hh Hin. unfold invoke. rewrite Hh.
  by apply run_handler_removes.
Qed.

Lemma for_of_one_shot (steps index : nat) (n : HandlerName) (a : Args) (s : SubId)
    (h : Handler) (w : MarkJSInput) (new : list (SubId * HandlerName * Args)) :
  NoDup (subscribers w) -> heap s n = Some h -> s ∈ h a ->
  called (for_of heap steps index n a w) = called w ++ new ->
  (s, n, a) ∈ new ->
  s ∉ subscribers (for_of heap steps index n a w).
Proof.
  intros Hnd Hh Hin. revert index w new Hnd.
  induction steps as [|steps IH]; intros index w new Hnd Hc Hnew; simpl in *.
  - rewrite <- (app_nil_r (called w)) in Hc at 1. apply app_inv_head in Hc as <-.
    by apply elem_of_nil in Hnew.
  - destruct (subscribers w !! index) as [s0|] eqn:E.
    2:{ rewrite <- (app_nil_r (called w)) in Hc at 1. apply app_inv_head in Hc as <-.
        by apply elem_of_nil in Hnew. }
    pose proof (invoke_shrinks heap n a s0 w) as Hsh.
    pose proof (shrinks_NoDup _ _ Hsh Hnd) as Hnd1.
    destruct (for_of_shrinks heap steps (S index) n a (invoke heap n a s0 w))
      as (_ & _ & Hsub & [new1 Hc1]).
    rewrite Hc1, invoke_called, <- app_assoc in Hc. apply app_inv_head in Hc as <-.
    apply elem_of_app in Hnew as [Hnew|Hnew].
    + destruct (has_handler heap n s0); [|by apply elem_of_nil in Hnew].
      apply list_elem_of_singleton in Hnew as [= ->].
      intros H. apply (invoke_removes n a s0 h w Hnd Hh Hin).
      by eapply elem_of_sublist.
    + by apply (IH (S index) (invoke heap n a s0 w) new1).
Qed.

End OneShot.

(** X19.  A handler that unsubscribes its own subscriber works as a
    one-shot: once it has been called in a notification, its subscriber
    is off the list when the notification ends. *)
Theorem one_shot_handler (heap : SubId -> Subscriber) (c : Canvas) (ops : list Op)
    (n : HandlerName) (a : Args) (s : SubId) (h : Handler) :
  let w := run heap c ops in
  let w' := notify heap n a w in
  heap s n = Some h -> s ∈ h a ->
  (s, n, a) ∈ called_since w w' ->
  s ∉ subscribers w'.
Proof.
  intros w w' Hh Hin Hc.
  destruct (notify_called heap n a w) as [new Hnew].
  apply (for_of_one_shot heap (length (subscribers w)) 0 n a s h (log_notified n a w) new);
    [apply run_NoDup | done | done | exact Hnew |].
  unfold called_since in Hc. subst w'. by rewrite Hnew, drop_app_length in Hc.
Qed.

Lemma for_of_step (heap : SubId -> Subscriber) (steps index : nat) (n : HandlerName)
    (a : Args) (w : MarkJSInput) (s : SubId) :
  subscribers w !! index = Some s ->
  for_of heap (S steps) index n a w
  = for_of heap steps (S index) n a (invoke heap n a s w).
Proof. intros H. simpl. by rewrite H. Qed.

Lemma notify_self_unsubscribe (heap : SubId -> Subscriber) (n : HandlerName) (a : Args)
    (s0 s1 : SubId) (rest : list SubId) (h : Handler) (w : MarkJSInput) :
  subscribers w = s0 :: s1 :: rest ->
  heap s0 n = Some h -> h a = [s0] ->
  exists cs,
    called (notify heap n a w) = called w ++ (s0, n, a) :: map (fun s => (s, n, a)) cs
    /\ cs `sublist_of` List.filter (has_handler heap n) rest.
Proof.
  intros Hl Hh Ha. unfold notify.
  set (w0 := log_notified n a w).
  assert (subscribers w0 = s0 :: s1 :: rest) as Hl0 by exact Hl.
  rewrite Hl0. cbn [length].
  rewrite (for_of_step heap _ 0 n a w0 s0) by by rewrite Hl0.
  set (w1 := invoke heap n a s0 w0).
  assert (subscribers w1 = s1 :: rest /\ called w1 = called w ++ [(s0, n, a)]) as [Hl1 Hc1].
  { subst w1. unfold invoke. rewrite Hh, Ha. simpl. unfold unsubscribe. simpl.
    rewrite Hl. simpl. by rewrite Nat.eqb_refl. }
  destruct (for_of_callees heap (S (length rest)) 1 n a w1) as (cs & Hc & Hs & _).
  { rewrite Hl1. simpl. lia. }
  exists cs. rewrite Hc, Hc1, <- app_assoc. split; [done|].
  by rewrite Hl1 in Hs.
Qed.

(** X20.  Where the first subscriber has the handler and its handler
    unsubscribes its own subscriber and no other, the first is called
    once and the second on the list is not called. *)
Theorem self_unsubscribe_skips_next (heap : SubId -> Subscriber) (c : Canvas)
    (ops : list Op) (n : HandlerName) (a : Args) (s0 s1 : SubId) (rest : list SubId)
    (h : Handler) :
  let w := run heap c ops in
  let w' := notify heap n a w in
  subscribers w = s0 :: s1 :: rest ->
  heap s0 n = Some h -> h a = [s0] ->
  calls_to s0 (called_since w w') = 1%nat
  /\ calls_to s1 (called_since w w') = O.
Proof.
  intros w w' Hl Hh Ha.
  destruct (notify_self_unsubscribe heap n a s0 s1 rest h w Hl Hh Ha) as (cs & Hc & Hs).
  pose proof (run_NoDup heap c ops) as Hnd. fold w in Hnd. rewrite Hl in Hnd.
  apply NoDup_cons in Hnd as [H0 Hnd]. apply NoDup_cons in Hnd as [H1 Hnd].
  apply not_elem_of_cons in H0 as [H01 H0].
  assert (forall s, s ∉ rest -> count_if (fun t => Nat.eqb t s) cs = O) as Hcs.
  { intros s Hs'. apply count_if_absent. intros Hin. apply Hs'.
    eapply elem_of_sublist in Hin; [|exact Hs].
    by apply elem_of_filter_bool in Hin as [? _]. }
  unfold called_since. subst w'. rewrite Hc, drop_app_length. unfold calls_to.
  simpl. rewrite !count_if_map. simpl. rewrite Nat.eqb_refl.
  destruct (Nat.eqb_spec s0 s1); [done|].
  by rewrite !Hcs.
Qed.


Lemma getCanvasCoordinates_monotone_witness :
  fst (getCanvasCoordinates canvas_800x600 12 25)
  <= fst (getCanvasCoordinates canvas_800x600 15 0).
Proof.
  destruct (getCanvasCoordinates_monotone canvas_800x600 12 15 25 0) as [H _];
    [reflexivity | reflexivity |].
  apply H. apply Qle_bool_imp_le. reflexivity.
Defined.

Lemma subscribe_unsubscribe_round_trip_witness :
  unsubscribe 2%nat (snd (subscribe 2%nat two_subscribers)) = two_subscribers.
Proof.
  apply (subscribe_unsubscribe_round_trip 2%nat two_subscribers).
  intros H. apply includes_elem_of in H. discriminate H.
Defined.

Lemma one_shot_handler_witness :
  0%nat ∉ subscribers (notify one_shot_heap onMouseMove (args_xy 10 10) two_subscribers).
Proof.
  apply (one_shot_handler one_shot_heap canvas_800x600
           [op_subscribe 0%nat; op_subscribe 1%nat] onMouseMove (args_xy 10 10)
           0%nat (fun _ => [0%nat])).
  - reflexivity.
  - by left.
  - by left.
Defined.

Lemma self_unsubscribe_skips_next_witness :
  calls_to 1%nat
    (called_since two_subscribers
       (notify one_shot_heap onMouseMove (args_xy 10 10) two_subscribers)) = O.
Proof.
  apply (self_unsubscribe_skips_next one_shot_heap canvas_800x600
           [op_subscribe 0%nat; op_subscribe 1%nat] onMouseMove (args_xy 10 10)
           0%nat 1%nat [] (fun _ => [0%nat])); reflexivity.
Defined.

Lemma unsubscribed_not_called_witness :
  calls_to 2%nat
    (called_since two_subscribers
       (foldl (step observers) two_subscribers [op_event (mousemove move_15_25)])) = O.
Proof.
  apply (unsubscribed_not_called observers 2%nat [op_event (mousemove move_15_25)]
           two_subscribers).
  - intros H. apply includes_elem_of in H. discriminate H.
  - repeat constructor. discriminate.
Defined.

Lemma calls_were_notified_witness :
  has_handler observers onMouseMove 0%nat = true.
Proof.
  apply (calls_were_notified observers canvas_800x600
           [op_subscribe 0%nat; op_subscribe 1%nat; op_event (mousemove move_15_25)]
           0%nat onMouseMove (args_xy 10 10)).
  by left.
Defined.

Lemma coordinates_in_canvas_witness : in_canvas canvas_800x600 (args_xy 10 10).
Proof.
  apply (coordinates_in_canvas observers canvas_800x600
           [op_subscribe 0%nat; op_event (mousemove move_15_25)]
           0%nat onMouseMove (args_xy 10 10)); [reflexivity | reflexivity |].
  left. by left.
Defined.


Lemma gamepad_state_kept_witness :
  gamepad (step observers
             (update observers (Some [Some pad_a_pressed]) (new_MarkJSInput canvas_800x600))
             (op_update (Some [None; None])))
  = Some pad_a_pressed.
Proof.
  destruct (gamepad_state_kept observers (op_update (Some [None; None]))
              (update observers (Some [Some pad_a_pressed])
                 (new_MarkJSInput canvas_800x600))) as (H & _);
    [discriminate | reflexivity |].
  exact H.
Defined.

Lemma key_provenance_witness :
  exists e, key e = "a" /\ op_event (keydown e) ∈ [op_event (keydown key_a)].
Proof.
  apply (key_provenance observers canvas_800x600 [op_event (keydown key_a)] "a" true).
  reflexivity.
Defined.


Lemma update_first_device_only_witness :
  update observers (Some [None; Some pad_a_pressed; Some (pad_stick 1)]) two_subscribers
  = update observers (Some [Some pad_a_pressed]) two_subscribers.
Proof. by apply update_first_device_only. Defined.

Lemma slow_drift_is_silent_witness :
  axis_facts
    (notified_since (new_MarkJSInput canvas_800x600)
       (polls observers [pad_stick (1 # 10); pad_stick (2 # 10); pad_stick (3 # 10)]
          (new_MarkJSInput canvas_800x600)))
  = [].
Proof.
  apply slow_drift_is_silent. simpl.
  repeat split; intros k Hk;
    destruct k as [|[|[|[|k]]]]; try lia;
    apply Qle_bool_imp_le; reflexivity.
Defined.

